(** * Mazegenerator: the maze engine of [make_kdp_maze_book.py] and
      [generate_kids_mazes.py]

    A shallow embedding of the [Maze] class (grid model, randomized
    depth-first generator, breadth-first solver) and the properties of the
    engine: perfect mazes, solver correctness, determinism, termination,
    wall symmetry, and the behaviour on inputs outside the intended domain. *)

From stdpp Require Import gmap list sets.
From Stdlib Require Import ZArith Lia.

Local Open Scope Z_scope.

(** ** Data model *)

(** [Cell = Tuple[int, int]]: Python integers, possibly negative. *)
Abbreviation Cell := (Z * Z)%type.

(** The keys "N", "S", "E", "W" of a cell's wall dictionary. *)
Inductive Dir := North | South | East | West.

(** The inner dictionary [{"N": b, "S": b, "E": b, "W": b}] of one cell;
    [true] = wall present. *)
Record Walls := MkWalls { wN : bool; wS : bool; wE : bool; wW : bool }.

(** [@dataclass class Maze: width; height; cells]. *)
Record Maze := MkMaze {
  width : Z;
  height : Z;
  cells : gmap Cell Walls
}.

(** The Python exceptions the engine can raise. *)
Inductive exn := KeyError (c : Cell) | IndexError.

(** Result of a call: a value or a raised exception. *)
Inductive outcome (A : Type) := Ok (a : A) | Raise (e : exn).
Arguments Ok {A} a.
Arguments Raise {A} e.

(** History of the operations on the generator's stack (the initial
    [stack = [start]] counts as the push of [start]).  The history is not a
    variable of the source; it records which branch each iteration took. *)
Inductive stack_op := Push (c : Cell) | Pop (c : Cell).

(** The module-level [random] generator: a hidden state, [random.seed],
    and [_randbelow n], which [random.choice] uses to pick an index below
    [n = len(seq)]. *)
Class Random := {
  rng : Type;
  seed_rng : Z → rng;
  randbelow : rng → nat → nat * rng;
  randbelow_lt : ∀ g n, n ≠ 0%nat → ((randbelow g n).1 < n)%nat
}.

#[global] Instance Dir_eq_dec : EqDecision Dir.
Proof. solve_decision. Defined.

#[global] Instance Walls_eq_dec : EqDecision Walls.
Proof. solve_decision. Defined.

Definition get_wall (w : Walls) (d : Dir) : bool :=
  match d with North => wN w | South => wS w | East => wE w | West => wW w end.

Definition set_wall (w : Walls) (d : Dir) (b : bool) : Walls :=
  match d with
  | North => MkWalls b (wS w) (wE w) (wW w)
  | South => MkWalls (wN w) b (wE w) (wW w)
  | East => MkWalls (wN w) (wS w) b (wW w)
  | West => MkWalls (wN w) (wS w) (wE w) b
  end.

(** The neighbour of a cell in a direction, as in [cand] of [_generate]
    and in [neighbors_open]: y grows to the south, x to the east. *)
Definition step (c : Cell) (d : Dir) : Cell :=
  match d with
  | North => (c.1, c.2 - 1)
  | South => (c.1, c.2 + 1)
  | East => (c.1 + 1, c.2)
  | West => (c.1 - 1, c.2)
  end.

Definition opp (d : Dir) : Dir :=
  match d with North => South | South => North | East => West | West => East end.

(** [0 <= x < width and 0 <= y < height]. *)
Definition in_bounds (W H : Z) (c : Cell) : Prop :=
  0 ≤ c.1 < W ∧ 0 ≤ c.2 < H.

#[global] Instance in_bounds_dec W H c : Decision (in_bounds W H c).
Proof. unfold in_bounds. apply _. Defined.

(** [range(n)]: empty when [n <= 0]. *)
Definition range (n : Z) : list Z := seqZ 0 n.

(** ** Maze.create: the fully walled grid *)

Definition all_walls : Walls := MkWalls true true true true.

(** [for x in range(width): for y in range(height): cells[(x, y)] = {...}] *)
Definition init_cells (W H : Z) : gmap Cell Walls :=
  foldl (λ cs x, foldl (λ cs y, <[(x, y) := all_walls]> cs) cs (range H))
        ∅ (range W).

(** ** Maze._generate *)

(** [self.cells[c][d] = False]; the lookup [self.cells[c]] raises
    [KeyError] when the cell has no entry. *)
Definition clear_wall (cs : gmap Cell Walls) (c : Cell) (d : Dir)
  : outcome (gmap Cell Walls) :=
  match cs !! c with
  | Some w => Ok (<[c := set_wall w d false]> cs)
  | None => Raise (KeyError c)
  end.

(** [cand]: the four candidates with the wall names seen from the current
    cell and from the neighbour. *)
Definition cand (c : Cell) : list (Cell * Dir * Dir) :=
  [ (step c North, North, South); (step c South, South, North);
    (step c East, East, West); (step c West, West, East) ].

(** The test of the inner [for] loop of [_generate]. *)
Definition is_candidate (W H : Z) (visited : gset Cell) (t : Cell * Dir * Dir) : Prop :=
  in_bounds W H t.1.1 ∧ t.1.1 ∉ visited.

#[global] Instance is_candidate_dec W H visited t : Decision (is_candidate W H visited t).
Proof. unfold is_candidate. apply _. Defined.

Section Generator.
Context `{R : Random}.

(** [random.choice(seq)]: [seq[_randbelow(len(seq))]]. *)
Definition choice {A} (g : rng) (l : list A) : outcome (A * rng) :=
  let '(i, g') := randbelow g (length l) in
  match l !! i with
  | Some a => Ok (a, g')
  | None => Raise IndexError
  end.

(** The variables of the [while] loop of [_generate].  The stack is the
    Python list, top at the end ([stack[-1]], [append], [pop]). *)
Record gen_state := MkGen {
  g_cells : gmap Cell Walls;
  g_stack : list Cell;
  g_visited : gset Cell;
  g_rng : rng;
  g_ops : list stack_op
}.

(** One iteration of the [while stack:] loop, with [current = stack[-1]]. *)
Definition gen_body (W H : Z) (st : gen_state) (current : Cell) : outcome gen_state :=
  let neighbors := filter (is_candidate W H (g_visited st)) (cand current) in
  match neighbors with
  | [] =>
      Ok (MkGen (g_cells st) (removelast (g_stack st)) (g_visited st)
                (g_rng st) (g_ops st ++ [Pop current]))
  | _ :: _ =>
      match choice (g_rng st) neighbors with
      | Raise e => Raise e
      | Ok ((n, dcur, dnb), g') =>
          match clear_wall (g_cells st) current dcur with
          | Raise e => Raise e
          | Ok cs1 =>
              match clear_wall cs1 n dnb with
              | Raise e => Raise e
              | Ok cs2 =>
                  Ok (MkGen cs2 (g_stack st ++ [n]) ({[n]} ∪ g_visited st)
                            g' (g_ops st ++ [Push n]))
              end
          end
      end
  end.

(** The [while stack:] loop; [None] = the fuel ran out before the stack
    emptied. *)
Fixpoint gen_loop (fuel : nat) (W H : Z) (st : gen_state)
  : option (outcome gen_state) :=
  match last (g_stack st) with
  | None => Some (Ok st)
  | Some current =>
      match fuel with
      | O => None
      | S fuel' =>
          match gen_body W H st current with
          | Raise e => Some (Raise e)
          | Ok st' => gen_loop fuel' W H st'
          end
      end
  end.

Definition gen_init (cs : gmap Cell Walls) (g : rng) : gen_state :=
  let start := (0, 0) in
  MkGen cs [start] {[start]} g [Push start].

(** The run of [_generate] on [self], history included. *)
Definition generate_run (fuel : nat) (self : Maze) (g : rng)
  : option (outcome gen_state) :=
  gen_loop fuel (width self) (height self) (gen_init (cells self) g).

(** [Maze._generate]: mutates [self.cells] and the random state. *)
Definition _generate (fuel : nat) (self : Maze) (g : rng)
  : option (outcome (Maze * rng)) :=
  match generate_run fuel self g with
  | None => None
  | Some (Raise e) => Some (Raise e)
  | Some (Ok st) =>
      Some (Ok (MkMaze (width self) (height self) (g_cells st), g_rng st))
  end.

(** [Maze.create(width, height, seed=None)] of [make_kdp_maze_book.py];
    [Maze.create(width, height)] of [generate_kids_mazes.py] is the case
    [seed = None]. *)
Definition create (fuel : nat) (W H : Z) (seed : option Z) (g : rng)
  : option (outcome (Maze * rng)) :=
  let g0 := match seed with Some s => seed_rng s | None => g end in
  _generate fuel (MkMaze W H (init_cells W H)) g0.

End Generator.

(** ** The solver: Maze.neighbors_open and Maze.solve_bfs *)

(** Methods of a [Maze] run on the object [self]: a call takes the object,
    and returns a value or an exception together with the object as the
    call leaves it.  [None] = fuel ran out inside a loop. *)
Definition M (A : Type) : Type := Maze → option (outcome A * Maze).

Definition ret {A} (a : A) : M A := λ self, Some (Ok a, self).

Definition bind {A B} (c : M A) (k : A → M B) : M B := λ self,
  match c self with
  | None => None
  | Some (Raise e, self') => Some (Raise e, self')
  | Some (Ok a, self') => k a self'
  end.

Notation "'let!' x ':=' c 'in' k" := (bind c (λ x, k))
  (at level 10, x name, c at level 100, k at level 200).

Definition out_of_fuel {A} : M A := λ _, None.

(** [self.width], [self.height]. *)
Definition read_width : M Z := λ self, Some (Ok (width self), self).
Definition read_height : M Z := λ self, Some (Ok (height self), self).

(** [self.cells[cell][d]]. *)
Definition read_wall (cell : Cell) (d : Dir) : M bool := λ self,
  match cells self !! cell with
  | Some w => Some (Ok (get_wall w d), self)
  | None => Some (Raise (KeyError cell), self)
  end.

(** [Maze.neighbors_open].  Each test looks up [self.cells[cell]] first, so a
    cell without entry raises [KeyError] at the first test; the short-circuit
    of [and] only skips reads, which have no effect. *)
Definition neighbors_open (cell : Cell) : M (list Cell) :=
  let '(x, y) := cell in
  let res := [] in
  let! n := read_wall cell North in
  let res := if negb n && (0 <=? y - 1) then res ++ [(x, y - 1)] else res in
  let! s := read_wall cell South in
  let! h := read_height in
  let res := if negb s && (y + 1 <? h) then res ++ [(x, y + 1)] else res in
  let! e := read_wall cell East in
  let! w := read_width in
  let res := if negb e && (x + 1 <? w) then res ++ [(x + 1, y)] else res in
  let! wt := read_wall cell West in
  let res := if negb wt && (0 <=? x - 1) then res ++ [(x - 1, y)] else res in
  ret res.

(** Body of [for nb in self.neighbors_open(cur)]:
    [if nb not in came_from: came_from[nb] = cur; queue.append(nb)]. *)
Definition discover (cur : Cell)
    (acc : list Cell * gmap Cell (option Cell)) (nb : Cell)
  : list Cell * gmap Cell (option Cell) :=
  match acc.2 !! nb with
  | None => (acc.1 ++ [nb], <[nb := Some cur]> acc.2)
  | Some _ => acc
  end.

(** The [while queue:] loop of [solve_bfs]; the deque is a list, front at
    the head ([popleft], [append]). *)
Fixpoint bfs_loop (fuel : nat) (goal : Cell) (queue : list Cell)
    (came_from : gmap Cell (option Cell)) : M (gmap Cell (option Cell)) :=
  match queue with
  | [] => ret came_from
  | cur :: queue' =>
      match fuel with
      | O => out_of_fuel
      | S fuel' =>
          if decide (cur = goal) then ret came_from
          else
            let! nbs := neighbors_open cur in
            let acc := foldl (discover cur) (queue', came_from) nbs in
            bfs_loop fuel' goal acc.1 acc.2
      end
  end.

(** [while cur is not None: path.append(cur); cur = came_from.get(cur)]. *)
Fixpoint walk_back (fuel : nat) (came_from : gmap Cell (option Cell))
    (cur : option Cell) (path : list Cell) : option (list Cell) :=
  match cur with
  | None => Some path
  | Some c =>
      match fuel with
      | O => None
      | S fuel' =>
          walk_back fuel' came_from (default None (came_from !! c)) (path ++ [c])
      end
  end.

(** [Maze.solve_bfs(start, goal=None)]; the default [start] is [(0, 0)]. *)
Definition solve_bfs (fuel : nat) (start : Cell) (goal : option Cell)
  : M (list Cell) :=
  let! goal :=
    match goal with
    | Some g => ret g
    | None =>
        let! w := read_width in
        let! h := read_height in
        ret (w - 1, h - 1)
    end in
  let! came_from := bfs_loop fuel goal [start] {[start := None]} in
  match walk_back fuel came_from (Some goal) [] with
  | None => out_of_fuel
  | Some path => ret (reverse path)
  end.

(** ** The open-adjacency graph of a maze *)

(** The wall of cell [c] in direction [d] is absent and both [c] and its
    neighbour in that direction lie in the grid. *)
Definition is_open (m : Maze) (c : Cell) (d : Dir) : bool :=
  bool_decide (in_bounds (width m) (height m) c)
  && bool_decide (in_bounds (width m) (height m) (step c d))
  && match cells m !! c with
     | Some w => negb (get_wall w d)
     | None => false
     end.

(** Open edge from [a] to [b]: unit-adjacent cells of the grid, the wall on
    [a]'s side facing [b] absent. *)
Definition open_edge (m : Maze) (a b : Cell) : Prop :=
  ∃ d, step a d = b ∧ is_open m a d = true.

(** [walk E a p b]: [p] is the sequence of vertices of a walk from [a] to
    [b], both included, consecutive vertices related by [E]. *)
Inductive walk {V : Type} (E : V → V → Prop) : V → list V → V → Prop :=
  | walk_one a : walk E a [a] a
  | walk_step a b l c : E a b → walk E b l c → walk E a (a :: l) c.

(** Between two vertices there is at most one simple path. *)
Definition unique_paths {V : Type} (E : V → V → Prop) : Prop :=
  ∀ a b p q, walk E a p b → NoDup p → walk E a q b → NoDup q → p = q.

(** The graph [E] with one more undirected edge between [c] and [n]. *)
Definition add_edge {V : Type} (E : V → V → Prop) (c n : V) : V → V → Prop :=
  λ a b, E a b ∨ (a = c ∧ b = n) ∨ (a = n ∧ b = c).

(** The cells of the grid, in the order [create] fills them. *)
Definition all_cells (W H : Z) : list Cell :=
  range W ≫= λ x, pair x <$> range H.

(** Each undirected edge of the grid once: a cell with its east or its
    south neighbour. *)
Definition edge_slots (W H : Z) : list (Cell * Dir) :=
  all_cells W H ≫= λ c, [(c, East); (c, South)].

(** The number of open edges of the maze. *)
Definition edge_count (m : Maze) : nat :=
  length (filter (λ s, is_open m s.1 s.2 = true) (edge_slots (width m) (height m))).

Definition connected (m : Maze) : Prop :=
  ∀ a b, in_bounds (width m) (height m) a → in_bounds (width m) (height m) b →
         ∃ p, walk (open_edge m) a p b.

(** No simple cycle: a simple path closed by an edge from its last to its
    first vertex has at most two vertices (an edge walked back). *)
Definition acyclic (m : Maze) : Prop :=
  ∀ a b p, walk (open_edge m) a p b → NoDup p → open_edge m b a → (length p ≤ 2)%nat.

Definition unique_simple_paths (m : Maze) : Prop :=
  ∀ a b, in_bounds (width m) (height m) a → in_bounds (width m) (height m) b →
         ∃ p, (walk (open_edge m) a p b ∧ NoDup p) ∧
              ∀ q, walk (open_edge m) a q b → NoDup q → q = p.

(** The open graph is a spanning tree of the grid. *)
Definition perfect (m : Maze) : Prop :=
  connected m ∧
  Z.of_nat (edge_count m) = width m * height m - 1 ∧
  acyclic m ∧
  unique_simple_paths m.

(** Every cell of the grid has an entry (the invariant of the grid model). *)
Definition well_formed (m : Maze) : Prop :=
  ∀ c, in_bounds (width m) (height m) c → is_Some (cells m !! c).

(** Pushes and pops of a history. *)
Definition pushes (ops : list stack_op) : list Cell :=
  ops ≫= λ o, match o with Push c => [c] | Pop _ => [] end.

Definition pops (ops : list stack_op) : list Cell :=
  ops ≫= λ o, match o with Pop c => [c] | Push _ => [] end.

(** A linear congruential generator, used to run the engine on concrete
    inputs. *)
Definition lcg_randbelow (g : N) (n : nat) : nat * N :=
  (Nat.modulo (N.to_nat ((g / 65536) mod 1024)%N) n,
   ((g * 1103515245 + 12345) mod 2147483648)%N).

Definition lcg : Random :=
  {| rng := N; seed_rng := Z.abs_N; randbelow := lcg_randbelow;
     randbelow_lt := λ g n H, Nat.mod_upper_bound _ n H |}.

(** ** The generator as a transition system *)

(** [self.cells] after the two assignments that clear the facing walls
    between [c] and its neighbour in direction [d]. *)
Definition open_between (cs : gmap Cell Walls) (c : Cell) (d : Dir)
    (w1 w2 : Walls) : gmap Cell Walls :=
  <[step c d := set_wall w2 (opp d) false]> (<[c := set_wall w1 d false]> cs).

Section GeneratorSteps.
Context `{R : Random}.

(** The maze object while the loop is in state [st]. *)
Definition maze_of (W H : Z) (st : gen_state) : Maze := MkMaze W H (g_cells st).

(** The two branches of an iteration of [_generate]. *)
Inductive gen_step (W H : Z) : gen_state → gen_state → Prop :=
  | gen_step_push st cur d w1 w2 g' :
      last (g_stack st) = Some cur →
      in_bounds W H (step cur d) →
      step cur d ∉ g_visited st →
      g_cells st !! cur = Some w1 →
      g_cells st !! step cur d = Some w2 →
      gen_step W H st
        (MkGen (open_between (g_cells st) cur d w1 w2)
               (g_stack st ++ [step cur d])
               ({[step cur d]} ∪ g_visited st)
               g' (g_ops st ++ [Push (step cur d)]))
  | gen_step_pop st cur :
      last (g_stack st) = Some cur →
      (∀ d, in_bounds W H (step cur d) → step cur d ∈ g_visited st) →
      gen_step W H st
        (MkGen (g_cells st) (removelast (g_stack st)) (g_visited st)
               (g_rng st) (g_ops st ++ [Pop cur])).

(** The invariant of the [while] loop of [_generate]. *)
Record gen_inv (W H : Z) (st : gen_state) : Prop := {
  inv_dom : ∀ c, is_Some (g_cells st !! c) ↔ in_bounds W H c;
  inv_vis_bounds : ∀ c, c ∈ g_visited st → in_bounds W H c;
  inv_stack_vis : ∀ c, c ∈ g_stack st → c ∈ g_visited st;
  inv_start : (0, 0) ∈ g_visited st;
  inv_finished : ∀ c d,
    c ∈ g_visited st → c ∉ g_stack st →
    in_bounds W H (step c d) → step c d ∈ g_visited st;
  inv_open_vis : ∀ c d,
    is_open (maze_of W H st) c d = true →
    c ∈ g_visited st ∧ step c d ∈ g_visited st;
  inv_sym : ∀ c d,
    is_open (maze_of W H st) c d = true →
    is_open (maze_of W H st) (step c d) (opp d) = true;
  inv_conn : ∀ c,
    c ∈ g_visited st → ∃ p, walk (open_edge (maze_of W H st)) (0, 0) p c;
  inv_unique : unique_paths (open_edge (maze_of W H st));
  inv_edges : (edge_count (maze_of W H st) + 1 = size (g_visited st))%nat;
  inv_push_nodup : NoDup (pushes (g_ops st));
  inv_push_vis : ∀ c, c ∈ pushes (g_ops st) ↔ c ∈ g_visited st;
  inv_push_pop : pushes (g_ops st) ≡ₚ pops (g_ops st) ++ g_stack st
}.

(** Twice the number of cells still to visit, plus the height of the
    stack: the number of iterations the loop still runs. *)
Definition gen_measure (W H : Z) (st : gen_state) : nat :=
  2 * (length (all_cells W H) - size (g_visited st)) + length (g_stack st).

(** [m] is a maze some call of [Maze.create(W, H, ...)] returns. *)
Definition generated (W H : Z) (m : Maze) : Prop :=
  ∃ fuel seed g g', create fuel W H seed g = Some (Ok (m, g')).
End GeneratorSteps.

(** Fuel that suffices for the loops of [_generate] and of [solve_bfs] on a
    [W×H] grid ([_generate] runs [2*W*H - 1] iterations). *)
Definition grid_fuel (W H : Z) : nat := 2 * Z.to_nat (W * H).

(** ** The solver's search as seen from outside *)

(** The list [neighbors_open] returns for a cell whose entry is [w]. *)
Definition open_neighbors_of (m : Maze) (w : Walls) (cell : Cell) : list Cell :=
  let '(x, y) := cell in
  let res := [] in
  let res := if negb (get_wall w North) && (0 <=? y - 1) then res ++ [(x, y - 1)] else res in
  let res := if negb (get_wall w South) && (y + 1 <? height m) then res ++ [(x, y + 1)] else res in
  let res := if negb (get_wall w East) && (x + 1 <? width m) then res ++ [(x + 1, y)] else res in
  let res := if negb (get_wall w West) && (0 <=? x - 1) then res ++ [(x - 1, y)] else res in
  res.

(** [back m start came_from c l]: [l] lists [c], its predecessor, the
    predecessor of that one, ... down to [start], as the reconstruction loop
    of [solve_bfs] reads them from [came_from]. *)
Inductive back (m : Maze) (start : Cell) (came_from : gmap Cell (option Cell))
  : Cell → list Cell → Prop :=
  | back_start :
      came_from !! start = Some None → back m start came_from start [start]
  | back_step c p l :
      came_from !! c = Some (Some p) → open_edge m p c →
      back m start came_from p l → c ∉ l →
      back m start came_from c (c :: l).

(** The invariant of the [while queue:] loop of [solve_bfs]. *)
Record bfs_inv (m : Maze) (start : Cell) (queue : list Cell)
    (came_from : gmap Cell (option Cell)) : Prop := {
  bi_start : came_from !! start = Some None;
  bi_back : ∀ c, is_Some (came_from !! c) → ∃ l, back m start came_from c l;
  bi_bounds : ∀ c, is_Some (came_from !! c) → in_bounds (width m) (height m) c;
  bi_queue : ∀ c, c ∈ queue → is_Some (came_from !! c);
  bi_closed : ∀ c, is_Some (came_from !! c) →
    c ∈ queue ∨ ∀ b, open_edge m c b → is_Some (came_from !! b)
}.

(** Cells still to discover, twice, plus the length of the queue. *)
Definition bfs_measure (m : Maze) (queue : list Cell)
    (came_from : gmap Cell (option Cell)) : nat :=
  2 * (length (all_cells (width m) (height m)) - size came_from) + length queue.

(** ** Concrete runs *)

(** [Maze.create(5, 5, seed=42)] under the generator [lcg]. *)
Definition demo5_result : option (outcome (Maze * N)) :=
  Eval vm_compute in @create lcg 50 5 5 (Some 42) 0%N.

Definition demo5 : Maze :=
  Eval vm_compute in
    match demo5_result with Some (Ok (m, _)) => m | _ => MkMaze 0 0 ∅ end.

Definition demo5_rng : N :=
  Eval vm_compute in
    match demo5_result with Some (Ok (_, g)) => g | _ => 0%N end.

(** A grid of two cells built by hand, the wall between them standing. *)
Definition walled : Maze := MkMaze 2 1 (init_cells 2 1).

(** ** Walls of the grid *)

(** Every absent wall lies between two cells of the grid. *)
Definition walls_inside (W H : Z) (cs : gmap Cell Walls) : Prop :=
  ∀ c w d, cs !! c = Some w → get_wall w d = false →
           in_bounds W H c ∧ in_bounds W H (step c d).

(** The number of [True] values in a cell's wall dictionary. *)
Definition walls_standing (w : Walls) : nat :=
  (Nat.b2n (wN w) + Nat.b2n (wS w) + Nat.b2n (wE w) + Nat.b2n (wW w))%nat.

(** The number of [True] wall values over the cells of the grid: what a
    renderer that draws one line per standing wall of each cell draws. *)
Definition wall_total (m : Maze) : nat :=
  sum_list ((λ c, from_option walls_standing 0%nat (cells m !! c))
              <$> all_cells (width m) (height m)).

(** The state of the loop of [_generate] after [n] iterations (or at its
    end, when it ends before). *)
Fixpoint gen_prefix `{R : Random} (n : nat) (W H : Z) (st : gen_state)
  : outcome gen_state :=
  match n with
  | O => Ok st
  | S n' =>
      match last (g_stack st) with
      | None => Ok st
      | Some current =>
          match gen_body W H st current with
          | Raise e => Raise e
          | Ok st' => gen_prefix n' W H st'
          end
      end
  end.

(** The bounds test [neighbors_open] makes in each direction. *)
Definition bounds_test (m : Maze) (c : Cell) (d : Dir) : bool :=
  match d with
  | North => 0 <=? c.2 - 1
  | South => c.2 + 1 <? height m
  | East => c.1 + 1 <? width m
  | West => 0 <=? c.1 - 1
  end.

(** The breadth-first order of the search: the cells in the queue are
    ordered by the length of their chain of predecessors, which differ by at
    most one; an expanded cell (discovered, no longer in the queue) is no
    farther than the cells in the queue; and the neighbours of an expanded
    cell are discovered, at most one step farther. *)
Record bfs_levels (m : Maze) (start : Cell) (queue : list Cell)
    (came_from : gmap Cell (option Cell)) : Prop := {
  lv_sorted : ∀ i j ci cj li lj,
    (i ≤ j)%nat → queue !! i = Some ci → queue !! j = Some cj →
    back m start came_from ci li → back m start came_from cj lj →
    (length li ≤ length lj ≤ length li + 1)%nat;
  lv_expanded : ∀ u lu c lc,
    back m start came_from u lu → u ∉ queue → c ∈ queue →
    back m start came_from c lc → (length lu ≤ length lc)%nat;
  lv_edge : ∀ u lu w,
    back m start came_from u lu → u ∉ queue → open_edge m u w →
    ∃ lw, back m start came_from w lw ∧ (length lw ≤ length lu + 1)%nat
}.

(** ** Drawing: [draw_maze] and [draw_solution_on_maze] of
    [generate_kids_mazes.py] *)

(** A pixel position [(x, y)]. *)
Abbreviation Point := (Z * Z)%type.













(** ** Page layout and book plan of [make_kdp_maze_book.py] *)

(** Python's [a // b] on integers: floor division, [ZeroDivisionError]
    ([None]) when [b] is zero. *)
Definition floordiv (a b : Z) : option Z :=
  if decide (b = 0) then None else Some (a / b).

(** What the head of a page builder computes before it draws. *)
Record page_layout := MkLayout {
  cell_size : Z;
  start_x : Z;
  start_y : Z;
  wall_width : Z
}.

(** The computation at the head of [draw_maze_page] and of [draw_key_page]:
    the area inside the margins ([reserved] pixels kept for the title), the
    largest cell size that fits, the corner that centres the maze, and the
    wall width [max(wall_min, cell_size // wall_div)].  [None] stands for
    [ZeroDivisionError]. *)
Definition layout_with (reserved wall_min wall_div : Z)
    (maze : Maze) (canvas_size : Z * Z) (margin : Z) : option page_layout :=
  let maze_width := canvas_size.1 - 2 * margin in
  let maze_height := canvas_size.2 - 2 * margin - reserved in
  match floordiv maze_width (width maze) with
  | None => None
  | Some across =>
      match floordiv maze_height (height maze) with
      | None => None
      | Some down =>
          let cell_size := Z.min across down in
          let maze_pixel_width := width maze * cell_size in
          let maze_pixel_height := height maze * cell_size in
          let start_x := margin + (maze_width - maze_pixel_width) / 2 in
          let start_y := margin + (maze_height - maze_pixel_height) / 2 in
          let wall_width := Z.max wall_min (cell_size / wall_div) in
          Some (MkLayout cell_size start_x start_y wall_width)
      end
  end.

(** [draw_maze_page]: 100 pixels reserved, [wall_width = max(2, cell_size // 15)]. *)
Definition maze_page_layout := layout_with 100 2 15.

(** [draw_key_page]: 60 pixels reserved, [wall_width = max(1, cell_size // 20)]. *)
Definition key_page_layout := layout_with 60 1 20.

(** [range(0, stop, step)] for a positive [step]. *)
Definition range_by (stop step : Z) : list Z :=
  (λ k, step * k) <$> seqZ 0 ((stop + step - 1) / step).

(** [l[i:j]] for [0 <= i <= j]. *)
Definition slice {A} (l : list A) (i j : Z) : list A :=
  take (Z.to_nat j - Z.to_nat i) (drop (Z.to_nat i) l).

(** The loop of [main] that cuts [all_keys] into the groups of the key
    pages: [for i in range(0, len(all_keys), 4): page_keys = all_keys[i:i+4]]. *)
Definition key_page_groups {A} (all_keys : list A) : list (list A) :=
  (λ i, slice all_keys i (i + 4)) <$> range_by (Z.of_nat (length all_keys)) 4.

(** What [create_4up_key_page] puts on the page for one key: the key image
    resized to [tile_size] and pasted with its top-left corner at [tile_at],
    and the maze id written at [tile_label_at]. *)
Record tile (Id Img : Type) := MkTile {
  tile_label : Id;
  tile_image : Img;
  tile_size : Z * Z;
  tile_at : Point;
  tile_label_at : Point;
}.
Arguments MkTile {Id Img}.
Arguments tile_label {Id Img}.
Arguments tile_image {Id Img}.
Arguments tile_size {Id Img}.
Arguments tile_at {Id Img}.
Arguments tile_label_at {Id Img}.

(** The loop [for i, (maze_id, key_img) in enumerate(keys[:4])] of
    [create_4up_key_page], from index [i] on; [None] is the [IndexError] of
    [positions[i]]. *)
Fixpoint paste_keys {Id Img} (positions : list Point) (key_width key_height : Z)
    (i : nat) (keys : list (Id * Img)) : option (list (tile Id Img)) :=
  match keys with
  | [] => Some []
  | (maze_id, key_img) :: keys =>
      if decide (4 ≤ i)%nat then Some []
      else
        pos ← positions !! i;
        let label_x := pos.1 + key_width / 2 - 30 in
        let label_y := pos.2 + key_height + 10 in
        tiles ← paste_keys positions key_width key_height (S i) keys;
        Some (MkTile maze_id key_img (key_width, key_height) pos (label_x, label_y) :: tiles)
  end.

(** [create_4up_key_page(keys, canvas_size)], as the list of the tiles it
    pastes on the white page. *)
Definition create_4up_key_page {Id Img} (keys : list (Id * Img)) (canvas_size : Z * Z)
  : option (list (tile Id Img)) :=
  let key_width := canvas_size.1 / 2 - 60 in
  let key_height := canvas_size.2 / 2 - 60 in
  let positions :=
    [(30, 30);
     (canvas_size.1 / 2 + 30, 30);
     (30, canvas_size.2 / 2 + 30);
     (canvas_size.1 / 2 + 30, canvas_size.2 / 2 + 30)] in
  paste_keys positions key_width key_height 0 (take 4 keys).

(** A call [Maze.create(grid_size, grid_size, args.seed + maze_counter)] of
    [main], with the counter from which the maze id is formatted and the
    stage number. *)
Record maze_call := MkCall {
  call_counter : Z;
  call_stage : Z;
  call_grid : Z;
  call_seed : Z
}.

(** The loops of [main] over [stages]: [maze_counter] and the calls made so
    far are the state. *)
Definition stage_calls (seed : Z) (st : Z * list maze_call) (stage : Z * Z * Z)
  : Z * list maze_call :=
  let '(count, grid_size, stage_num) := stage in
  foldl (λ st _i,
           let maze_counter := st.1 in
           (maze_counter + 1,
            st.2 ++ [MkCall maze_counter stage_num grid_size (seed + maze_counter)]))
        st (range count).

Definition maze_calls (seed : Z) (stages : list (Z * Z * Z)) : list maze_call :=
  (foldl (stage_calls seed) (1, []) stages).2.

(** The state of the two loops of [main] that make the mazes: the counter is
    one more than the number of calls made, and the [i]-th call carries the
    counter [i + 1]. *)
Definition plan_ok (seed : Z) (stages : list (Z * Z * Z)) (st : Z * list maze_call) : Prop :=
  Z.of_nat (length st.2) = st.1 - 1 ∧
  ∀ i c, st.2 !! i = Some c →
    call_counter c = Z.of_nat i + 1 ∧ call_seed c = seed + call_counter c ∧
    ∃ count, (count, call_grid c, call_stage c) ∈ stages.

(** [stages] of [main] for the counts [--s1 .. --s4]. *)
Definition stages_of (s1 s2 s3 s4 : Z) : list (Z * Z * Z) :=
  [(s1, 5, 1); (s2, 7, 2); (s3, 10, 3); (s4, 15, 4)].

(** The four assertions at the end of [main]; [Some n] = the [n]-th one
    fails with [AssertionError]. *)
Definition quality_checks (seed s1 s2 s3 s4 s5 : Z) : option nat :=
  let stages := stages_of s1 s2 s3 s4 in
  let all_keys := maze_calls seed stages in
  let key_pages := key_page_groups all_keys in
  let total_mazes := foldr Z.add 0 ((λ stage, stage.1.1) <$> stages) in
  if decide (total_mazes ≠ 72) then Some 1%nat
  else if decide (length all_keys ≠ 72%nat) then Some 2%nat
  else if decide (length key_pages ≠ 18%nat) then Some 3%nat
  else
    let total_pages := 2 + 72 + s5 + 18 in
    if decide (total_pages ≠ 100) then Some 4%nat else None.

(** * Properties *)

(** ** Walks in a graph *)

Lemma NoDup_reverse {A} (l : list A) : NoDup l → NoDup (reverse l).
Proof. by rewrite reverse_Permutation. Qed.

Section Walks.
Context {V : Type} (E : V → V → Prop).

Lemma walk_inv_head a l c : walk E a l c → ∃ l', l = a :: l'.
Proof. destruct 1; eauto. Qed.

Lemma walk_last a l c : walk E a l c → last l = Some c.
Proof.
  induction 1 as [|a b l c Hab Hw IH]; [done|].
  destruct (walk_inv_head _ _ _ Hw) as [l' ->]. by rewrite last_cons_cons.
Qed.

Lemma walk_first_in a l c : walk E a l c → a ∈ l.
Proof. intros [l' ->]%walk_inv_head. left. Qed.

Lemma walk_last_in a l c : walk E a l c → c ∈ l.
Proof. intros Hw%walk_last. by apply last_Some_elem_of. Qed.

Lemma walk_snoc a l b c : walk E a l b → E b c → walk E a (l ++ [c]) c.
Proof.
  induction 1 as [a|a b l c' Hab Hw IH]; intros Hc; simpl.
  - apply walk_step with c; [done | constructor].
  - apply walk_step with b; auto.
Qed.

Lemma walk_app a l b l' c :
  walk E a l b → walk E b (b :: l') c → walk E a (l ++ l') c.
Proof.
  induction 1 as [a|a b l c' Hab Hw IH]; intros Hc; simpl; [done|].
  apply walk_step with b; auto.
Qed.

Lemma walk_suffix a l c x :
  walk E a l c → x ∈ l → ∃ l1 l2, l = l1 ++ x :: l2 ∧ walk E x (x :: l2) c.
Proof.
  induction 1 as [a|a b l c Hab Hw IH]; intros Hx.
  - apply list_elem_of_singleton in Hx as ->. exists [], []. split; [done | constructor].
  - apply elem_of_cons in Hx as [->|Hx].
    + exists [], l. split; [done|]. by apply walk_step with b.
    + destruct (IH Hx) as (l1 & l2 & -> & Hw'). by exists (a :: l1), l2.
Qed.

(** Erasing the loops of a walk gives a simple path that is not longer. *)
Lemma walk_simple `{EqDecision V} a l c :
  walk E a l c → ∃ l', walk E a l' c ∧ NoDup l' ∧ (length l' ≤ length l)%nat.
Proof.
  induction 1 as [a|a b l c Hab Hw (l' & Hw' & Hnd & Hlen)].
  - exists [a]. repeat split; [constructor | apply NoDup_singleton | done].
  - destruct (decide (a ∈ l')) as [Hin|Hnin].
    + destruct (walk_suffix _ _ _ _ Hw' Hin) as (l1 & l2 & -> & Hs).
      exists (a :: l2). split; [done|]. split.
      * by apply NoDup_app in Hnd as (_ & _ & ?).
      * rewrite length_app in Hlen. simpl in *. lia.
    + exists (a :: l'). split; [by apply walk_step with b|]. split.
      * by apply NoDup_cons.
      * simpl. lia.
Qed.

Lemma walk_loop a l : walk E a l a → NoDup l → l = [a].
Proof.
  inversion 1 as [|? b l' ? Hab Hw]; subst; [done|].
  intros [Hnin _]%NoDup_cons. destruct Hnin. by eapply walk_last_in.
Qed.

Lemma walk_impl (E' : V → V → Prop) a l c :
  (∀ x y, x ∈ l → y ∈ l → E x y → E' x y) → walk E a l c → walk E' a l c.
Proof.
  intros HE Hw. induction Hw as [a|a b l c Hab Hw IH]; [constructor|].
  apply walk_step with b.
  - apply HE; [left | right; by eapply walk_first_in | done].
  - apply IH. intros x y Hx Hy. apply HE; by right.
Qed.

Lemma walk_rev a l c :
  (∀ x y, E x y → E y x) → walk E a l c → walk E c (reverse l) a.
Proof.
  intros Hsym. induction 1 as [a|a b l c Hab Hw IH]; [constructor|].
  rewrite reverse_cons. eapply walk_snoc; eauto.
Qed.
End Walks.

(** ** Attaching a leaf to a tree keeps simple paths unique *)

Section Leaf.
Context {V : Type} `{EqDecision V} (E : V → V → Prop) (c n : V).
Hypothesis fresh : ∀ a b, E a b → a ≠ n ∧ b ≠ n.
Hypothesis c_old : c ≠ n.
Hypothesis E_sym : ∀ a b, E a b → E b a.

Lemma add_edge_sym a b : add_edge E c n a b → add_edge E c n b a.
Proof.
  intros [H|[[? ?]|[? ?]]]; [left; auto | right; right; auto | right; left; auto].
Qed.

Lemma add_edge_from_leaf b : add_edge E c n n b → b = c.
Proof. intros [H|[[? ?]|[? ?]]]; [by apply fresh in H as [? _] | done | done]. Qed.

Lemma add_edge_to_leaf a : add_edge E c n a n → a = c.
Proof. intros H%add_edge_sym. by apply add_edge_from_leaf. Qed.

Lemma walk_avoiding_leaf a l b :
  walk (add_edge E c n) a l b → n ∉ l → walk E a l b.
Proof.
  intros Hw Hn. eapply walk_impl; [|exact Hw].
  intros x y Hx Hy [H|[[? ->]|[-> ?]]]; [done | done | done].
Qed.

Lemma leaf_not_inside a l b :
  walk (add_edge E c n) a l b → NoDup l → a ≠ n → b ≠ n → n ∉ l.
Proof.
  induction 1 as [a|a b l c0 Hab Hw IH]; intros Hnd Ha Hc0.
  - by intros ->%list_elem_of_singleton.
  - apply NoDup_cons in Hnd as [Hal Hnd].
    intros [?|Hin]%elem_of_cons; [done|].
    destruct (decide (b = n)) as [Hbn|Hbn].
    + rewrite Hbn in Hab, Hw. apply add_edge_to_leaf in Hab.
      inversion Hw as [|? b2 l2 ? Hb2 Hw2 E1 E2 E3]; [congruence|].
      apply add_edge_from_leaf in Hb2. apply Hal.
      destruct (walk_inv_head _ _ _ _ Hw2) as [l3 El3].
      rewrite <- E2, El3, Hb2, Hab. right. left.
    + by apply IH.
Qed.

Lemma walk_from_leaf l b :
  walk (add_edge E c n) n l b → NoDup l → b ≠ n →
  ∃ l', l = n :: l' ∧ walk E c l' b.
Proof.
  inversion 1 as [|? b2 l' ? Hb2 Hw2]; subst; [done|].
  intros [Hn Hnd]%NoDup_cons _. apply add_edge_from_leaf in Hb2 as ->.
  exists l'. split; [done|]. by apply walk_avoiding_leaf.
Qed.

Lemma unique_paths_add_leaf :
  unique_paths E → unique_paths (add_edge E c n).
Proof.
  intros HU.
  assert (Hfrom : ∀ b p q,
    walk (add_edge E c n) n p b → NoDup p →
    walk (add_edge E c n) n q b → NoDup q → p = q).
  { intros b p q Hp Hndp Hq Hndq. destruct (decide (b = n)) as [->|Hb].
    - by rewrite (walk_loop _ _ _ Hp Hndp), (walk_loop _ _ _ Hq Hndq).
    - destruct (walk_from_leaf _ _ Hp Hndp Hb) as (p' & -> & Hp').
      destruct (walk_from_leaf _ _ Hq Hndq Hb) as (q' & -> & Hq').
      apply NoDup_cons in Hndp as [_ ?]. apply NoDup_cons in Hndq as [_ ?].
      f_equal. by eapply HU. }
  intros a b p q Hp Hndp Hq Hndq.
  destruct (decide (a = n)) as [->|Ha]; [by eapply Hfrom|].
  destruct (decide (b = n)) as [->|Hb].
  - apply (inj reverse). apply (Hfrom a).
    + apply walk_rev; [apply add_edge_sym | done].
    + by apply NoDup_reverse.
    + apply walk_rev; [apply add_edge_sym | done].
    + by apply NoDup_reverse.
  - eapply HU; [| done | | done]; apply walk_avoiding_leaf; try done;
      by eapply leaf_not_inside.
Qed.
End Leaf.

(** ** The grid *)

Lemma opp_opp d : opp (opp d) = d.
Proof. by destruct d. Qed.

Lemma step_back c d : step (step c d) (opp d) = c.
Proof. destruct c as [x y], d; simpl; f_equal; lia. Qed.

Lemma step_neq c d : step c d ≠ c.
Proof. destruct c as [x y], d; simpl; intros [=]; lia. Qed.

Lemma step_inj c d e : step c d = step c e → d = e.
Proof. destruct c as [x y], d, e; simpl; intros [=]; try done; lia. Qed.

Lemma get_set_wall w d e b :
  get_wall (set_wall w d b) e = if decide (e = d) then b else get_wall w e.
Proof. by destruct d, e. Qed.

Lemma elem_of_range n k : k ∈ range n ↔ 0 ≤ k < n.
Proof. unfold range. rewrite elem_of_seqZ. lia. Qed.

Lemma elem_of_all_cells W H c : c ∈ all_cells W H ↔ in_bounds W H c.
Proof.
  unfold all_cells, in_bounds. rewrite list_elem_of_bind. split.
  - intros (x & (y & -> & Hy)%list_elem_of_fmap & Hx).
    apply elem_of_range in Hx, Hy. done.
  - intros [Hx Hy]. exists c.1. split; [|by apply elem_of_range].
    apply list_elem_of_fmap. exists c.2. split; [by destruct c | by apply elem_of_range].
Qed.

Lemma NoDup_all_cells W H : NoDup (all_cells W H).
Proof.
  unfold all_cells. apply NoDup_bind.
  - intros x1 x2 c _ _ (y1 & -> & _)%list_elem_of_fmap (y2 & [=] & _)%list_elem_of_fmap.
    done.
  - intros x _. apply NoDup_fmap_2; [|apply NoDup_seqZ]. by intros ?? [=].
  - apply NoDup_seqZ.
Qed.

Lemma length_all_cells W H :
  length (all_cells W H) = (Z.to_nat W * Z.to_nat H)%nat.
Proof.
  unfold all_cells, range.
  assert (Hlen : ∀ xs : list Z,
    length (xs ≫= λ x, pair x <$> seqZ 0 H) = (length xs * Z.to_nat H)%nat).
  { induction xs as [|x xs IH]; [done|].
    csimpl. by rewrite length_app, length_fmap, length_seqZ, IH. }
  by rewrite Hlen, length_seqZ.
Qed.

Lemma elem_of_edge_slots W H c d :
  (c, d) ∈ edge_slots W H ↔ in_bounds W H c ∧ (d = East ∨ d = South).
Proof.
  unfold edge_slots. rewrite list_elem_of_bind. split.
  - intros (c' & Hin & Hc'%elem_of_all_cells).
    apply elem_of_cons in Hin as [[= -> ->]|Hin]; [auto|].
    apply list_elem_of_singleton in Hin as [= -> ->]. auto.
  - intros [Hc Hd]. exists c. rewrite elem_of_all_cells. split; [|done].
    destruct Hd as [-> | ->]; [left | right; left].
Qed.

Lemma NoDup_edge_slots W H : NoDup (edge_slots W H).
Proof.
  unfold edge_slots. apply NoDup_bind.
  - intros c1 c2 s _ _ H1 H2.
    assert (s.1 = c1) as <-.
    { apply elem_of_cons in H1 as [->|H1]; [done|].
      by apply list_elem_of_singleton in H1 as ->. }
    apply elem_of_cons in H2 as [->|H2]; [done|].
    by apply list_elem_of_singleton in H2 as ->.
  - intros c _. apply NoDup_cons. split; [|apply NoDup_singleton].
    by intros [=]%list_elem_of_singleton.
  - apply NoDup_all_cells.
Qed.

(** The grid [create] builds: an entry with four walls for exactly the
    cells of the rectangle. *)
Lemma lookup_init_cells W H c :
  init_cells W H !! c = if decide (in_bounds W H c) then Some all_walls else None.
Proof.
  unfold init_cells.
  assert (Hin : ∀ x ys (cs : gmap Cell Walls),
    foldl (λ cs y, <[(x, y) := all_walls]> cs) cs ys !! c =
    if decide (c.1 = x ∧ c.2 ∈ ys) then Some all_walls else cs !! c).
  { intros x ys. induction ys as [|y ys IH]; intros cs.
    - rewrite decide_False; [done|]. intros [_ Hd]. by apply elem_of_nil in Hd.
    - simpl. rewrite IH. case_decide as Hd.
      + rewrite decide_True; [done|]. destruct Hd. split; [done | by right].
      + destruct (decide (c = (x, y))) as [->|Hne].
        * rewrite lookup_insert_eq, decide_True; [done|]. split; [done | left].
        * rewrite lookup_insert_ne by done. case_decide as Hd'; [|done].
          destruct Hd' as [Hx [Hy|Hy]%elem_of_cons]; [|by destruct Hd].
          destruct Hne. by destruct c; simpl in *; subst. }
  assert (Hout : ∀ xs (cs : gmap Cell Walls),
    foldl (λ cs x, foldl (λ cs y, <[(x, y) := all_walls]> cs) cs (range H)) cs xs !! c =
    if decide (c.1 ∈ xs ∧ c.2 ∈ range H) then Some all_walls else cs !! c).
  { induction xs as [|x xs IH]; intros cs.
    - rewrite decide_False; [done|]. intros [Hd _]. by apply elem_of_nil in Hd.
    - simpl. rewrite IH, Hin. case_decide as Hd.
      + rewrite decide_True; [done|]. destruct Hd. split; [by right | done].
      + case_decide as Hd1.
        * rewrite decide_True; [done|]. destruct Hd1 as [<- ?]. split; [left | done].
        * case_decide as Hd2; [|done].
          destruct Hd2 as [[Hx|Hx]%elem_of_cons Hy]; [by destruct Hd1 | by destruct Hd]. }
  rewrite Hout, lookup_empty. unfold in_bounds.
  repeat case_decide; rewrite ?elem_of_range in *; try done; tauto.
Qed.

(** ** The open graph under the generator's wall removal *)

Lemma is_open_inv m c d :
  is_open m c d = true ↔
  in_bounds (width m) (height m) c ∧ in_bounds (width m) (height m) (step c d) ∧
  ∃ w, cells m !! c = Some w ∧ get_wall w d = false.
Proof.
  unfold is_open. rewrite !andb_true_iff, !bool_decide_eq_true.
  destruct (cells m !! c) as [w|]; split.
  - intros [[? ?] Hw%negb_true_iff]. eauto.
  - intros (? & ? & w' & [= <-] & ->). done.
  - intros [_ [=]].
  - intros (_ & _ & w' & [=] & _).
Qed.

Lemma is_open_open_between W H cs cur d w1 w2 c e :
  in_bounds W H cur → in_bounds W H (step cur d) →
  cs !! cur = Some w1 → cs !! step cur d = Some w2 →
  is_open (MkMaze W H (open_between cs cur d w1 w2)) c e = true ↔
  is_open (MkMaze W H cs) c e = true ∨ (c = cur ∧ e = d) ∨ (c = step cur d ∧ e = opp d).
Proof.
  intros Hcur Hn H1 H2. rewrite !is_open_inv. simpl. unfold open_between.
  pose proof (step_neq cur d) as Hne.
  destruct (decide (c = step cur d)) as [->|Hc1].
  - rewrite lookup_insert_eq. split.
    + intros (? & ? & w & [= <-] & Hw). rewrite get_set_wall in Hw.
      case_decide; [by auto|]. left. eauto.
    + intros [(? & ? & w & Hw & ?)|[[? _]|[_ ->]]]; [| done |].
      * split; [done|]. split; [done|]. eexists. split; [done|].
        rewrite get_set_wall. case_decide; [done | congruence].
      * split; [done|]. rewrite step_back. split; [done|]. eexists. split; [done|].
        rewrite get_set_wall. by rewrite decide_True.
  - rewrite lookup_insert_ne by done. destruct (decide (c = cur)) as [->|Hc2].
    + rewrite lookup_insert_eq. split.
      * intros (? & ? & w & [= <-] & Hw). rewrite get_set_wall in Hw.
        case_decide; [by auto|]. left. eauto.
      * intros [(? & ? & w & Hw & ?)|[[_ ->]|[? _]]]; [| | done].
        -- split; [done|]. split; [done|]. eexists. split; [done|].
           rewrite get_set_wall. case_decide; [done | congruence].
        -- split; [done|]. split; [done|]. eexists. split; [done|].
           rewrite get_set_wall. by rewrite decide_True.
    + rewrite lookup_insert_ne by done. split; [auto|].
      intros [?|[[? _]|[? _]]]; done.
Qed.

Lemma open_edge_open_between W H cs cur d w1 w2 a b :
  in_bounds W H cur → in_bounds W H (step cur d) →
  cs !! cur = Some w1 → cs !! step cur d = Some w2 →
  open_edge (MkMaze W H (open_between cs cur d w1 w2)) a b ↔
  add_edge (open_edge (MkMaze W H cs)) cur (step cur d) a b.
Proof.
  intros Hcur Hn H1 H2. unfold open_edge, add_edge.
  setoid_rewrite (is_open_open_between W H cs cur d w1 w2 _ _ Hcur Hn H1 H2).
  split.
  - intros (e & <- & [He|[[-> ->]|[-> ->]]]); [left; eauto | right; left; done |].
    right; right. by rewrite step_back.
  - intros [(e & <- & He)|[[-> ->]|[-> ->]]]; [by eauto | by eauto 6 |].
    exists (opp d). rewrite step_back. auto.
Qed.

Lemma unique_paths_iff {V} (E E' : V → V → Prop) :
  (∀ a b, E a b ↔ E' a b) → unique_paths E → unique_paths E'.
Proof.
  intros HE HU a b p q Hp ? Hq ?.
  eapply HU; [| done | | done]; (eapply walk_impl; [|done]); intros; by apply HE.
Qed.

(** Counting after one more element satisfies the predicate. *)
Lemma filter_length_one_more {A} (P Q : A → Prop)
    `{∀ x, Decision (P x)} `{∀ x, Decision (Q x)} (l : list A) (s : A) :
  NoDup l → s ∈ l → ¬ P s → (∀ x, x ∈ l → Q x ↔ P x ∨ x = s) →
  length (filter Q l) = S (length (filter P l)).
Proof.
  intros Hnd Hs HPs HQ.
  assert (Hsame : ∀ k : list A, s ∉ k → (∀ x, x ∈ k → Q x ↔ P x ∨ x = s) →
                   filter Q k = filter P k).
  { induction k as [|x k IH]; intros Hsk Hk; [done|].
    apply not_elem_of_cons in Hsk as [Hsx Hsk].
    rewrite !filter_cons, IH; [|done|intros; apply Hk; by right].
    assert (Q x ↔ P x) as Hx. { rewrite Hk by left. intuition congruence. }
    repeat case_decide; tauto. }
  induction l as [|x l IH]; [by apply elem_of_nil in Hs|].
  apply NoDup_cons in Hnd as [Hxl Hnd]. rewrite !filter_cons.
  apply elem_of_cons in Hs as [->|Hs].
  - rewrite (decide_True (P := Q x)), (decide_False (P := P x)); [| done |].
    + simpl. rewrite Hsame; [done | done |]. intros; apply HQ; by right.
    + apply HQ; [left | by right].
  - assert (x ≠ s) by (by intros ->).
    assert (Q x ↔ P x) as Hx. { rewrite HQ by left. intuition congruence. }
    assert (length (filter Q l) = S (length (filter P l))) as IH'.
    { apply IH; [done | done |]. intros; apply HQ; by right. }
    repeat case_decide; simpl; rewrite ?IH'; tauto.
Qed.

(** ** The invariant of the generator *)

Lemma pushes_snoc ops o :
  pushes (ops ++ [o]) = pushes ops ++ match o with Push c => [c] | Pop _ => [] end.
Proof. unfold pushes. rewrite bind_app. csimpl. by rewrite app_nil_r. Qed.

Lemma pops_snoc ops o :
  pops (ops ++ [o]) = pops ops ++ match o with Pop c => [c] | Push _ => [] end.
Proof. unfold pops. rewrite bind_app. csimpl. by rewrite app_nil_r. Qed.

Lemma open_edge_sym_of m :
  (∀ c d, is_open m c d = true → is_open m (step c d) (opp d) = true) →
  ∀ a b, open_edge m a b → open_edge m b a.
Proof.
  intros Hsym a b (d & <- & Hd). exists (opp d). rewrite step_back. auto.
Qed.

(** Projections of explicit generator states and mazes, computed without
    unfolding the finite-set operations. *)
Ltac gen_simpl :=
  unfold maze_of, gen_init in *;
  cbn [g_cells g_stack g_visited g_rng g_ops width height cells fst snd] in *.

Section GeneratorInvariant.
Context `{R : Random} (W H : Z).

Lemma gen_inv_init g :
  1 ≤ W → 1 ≤ H → gen_inv W H (gen_init (init_cells W H) g).
Proof.
  intros HW HH.
  assert (Hclosed : ∀ c d, is_open (MkMaze W H (init_cells W H)) c d = false).
  { intros c d. apply not_true_is_false. intros (? & ? & w & Hw & Hd)%is_open_inv.
    simpl in Hw. rewrite lookup_init_cells in Hw. case_decide; [|done].
    injection Hw as <-. by destruct d. }
  assert (Hnoedge : ∀ a b, ¬ open_edge (MkMaze W H (init_cells W H)) a b).
  { intros a b (d & _ & Hd). by rewrite Hclosed in Hd. }
  constructor; gen_simpl.
  - intros c. rewrite lookup_init_cells. case_decide; [|by split; [intros [? [=]]|]].
    split; [done | eauto].
  - intros c ->%elem_of_singleton. unfold in_bounds. simpl. lia.
  - intros c ->%list_elem_of_singleton. by apply elem_of_singleton.
  - by apply elem_of_singleton.
  - intros c d ->%elem_of_singleton Hc. destruct Hc. left.
  - intros c d Hc. by rewrite Hclosed in Hc.
  - intros c d Hc. by rewrite Hclosed in Hc.
  - intros c ->%elem_of_singleton. exists [(0, 0)]. constructor.
  - intros a b p q Hp _ Hq _.
    inversion Hp as [|???? He]; [|by apply Hnoedge in He].
    inversion Hq as [|???? He]; [|by apply Hnoedge in He]. by subst.
  - rewrite size_singleton. unfold edge_count. gen_simpl.
    assert (Hnil : ∀ l : list (Cell * Dir),
      filter (λ s, is_open (MkMaze W H (init_cells W H)) s.1 s.2 = true) l = []).
    { induction l as [|s l IH]; [done|].
      rewrite filter_cons, IH, decide_False; [done|]. by rewrite Hclosed. }
    by rewrite Hnil.
  - apply NoDup_singleton.
  - intros c. change (pushes [Push (0, 0)]) with [((0, 0) : Cell)].
    by rewrite list_elem_of_singleton, elem_of_singleton.
  - done.
Qed.

Lemma gen_inv_push st cur d w1 w2 g' :
  gen_inv W H st →
  last (g_stack st) = Some cur →
  in_bounds W H (step cur d) →
  step cur d ∉ g_visited st →
  g_cells st !! cur = Some w1 →
  g_cells st !! step cur d = Some w2 →
  gen_inv W H
    (MkGen (open_between (g_cells st) cur d w1 w2)
           (g_stack st ++ [step cur d])
           ({[step cur d]} ∪ g_visited st)
           g' (g_ops st ++ [Push (step cur d)])).
Proof.
  intros Hinv Hlast Hn Hnv H1 H2. destruct st as [cs stack visited g ops].
  destruct Hinv as [Hdom Hvb Hsv Hstart Hfin Hov Hsym Hconn Hun Hedges Hnd Hpv Hpp].
  gen_simpl.
  assert (Hcurv : cur ∈ visited). { apply Hsv. by apply last_Some_elem_of. }
  assert (Hcur : in_bounds W H cur) by auto.
  pose proof (is_open_open_between W H cs cur d w1 w2) as Hopen.
  pose proof (open_edge_open_between W H cs cur d w1 w2) as Hedge.
  pose proof (step_back cur d) as Hback.
  pose proof (step_neq cur d) as Hneq.
  remember (step cur d) as n eqn:En.
  assert (Hsub : ∀ a b, open_edge (MkMaze W H cs) a b →
                 open_edge (MkMaze W H (open_between cs cur d w1 w2)) a b).
  { intros a b Hab. apply Hedge; [done..|]. by left. }
  constructor; gen_simpl.
  - intros c. unfold open_between. rewrite <-En, !lookup_insert_is_Some, Hdom.
    split.
    + intros [ <- | [_ [ <- | [_ ?]]]]; done.
    + intros Hc. destruct (decide (n = c)); [by left|]. right. split; [done|].
      destruct (decide (cur = c)); [by left|]. by right.
  - intros c [->%elem_of_singleton|?]%elem_of_union; auto.
  - intros c [? | ->%list_elem_of_singleton]%elem_of_app; apply elem_of_union;
      [right; auto | left; by apply elem_of_singleton].
  - apply elem_of_union. by right.
  - intros c e [->%elem_of_singleton|Hc]%elem_of_union Hns Hb.
    + destruct Hns. apply elem_of_app. right. left.
    + apply elem_of_union. right. apply Hfin; [done | | done].
      intros ?. apply Hns. apply elem_of_app. by left.
  - intros c e [Hc|[[-> ->]|[-> ->]]]%Hopen; [| | | done..].
    + apply Hov in Hc as [? ?]. rewrite !elem_of_union. auto.
    + rewrite <-En, !elem_of_union, !elem_of_singleton. auto.
    + rewrite Hback, !elem_of_union, !elem_of_singleton. auto.
  - intros c e [Hc|[[-> ->]|[-> ->]]]%Hopen; [| | | done..]; apply Hopen; try done.
    + left. by apply Hsym.
    + right. right. done.
    + right. left. by rewrite Hback, opp_opp.
  - intros c [->%elem_of_singleton|Hc]%elem_of_union.
    + destruct (Hconn cur Hcurv) as [p Hp]. exists (p ++ [n]).
      eapply walk_snoc.
      * eapply walk_impl; [|exact Hp]. auto.
      * apply Hedge; [done..|]. right. by left.
    + destruct (Hconn c Hc) as [p Hp]. exists p.
      eapply walk_impl; [|exact Hp]. auto.
  - eapply unique_paths_iff.
    { intros a b. symmetry. by apply Hedge. }
    apply unique_paths_add_leaf; [| | by apply open_edge_sym_of | done].
    + intros a b (e & <- & [? ?]%Hov). split; congruence.
    + congruence.
  - rewrite size_union, size_singleton by set_solver.
    rewrite <-Hedges. unfold edge_count. gen_simpl.
    replace (1 + (length (filter (λ s, is_open (MkMaze W H cs) s.1 s.2 = true)
                    (edge_slots W H)) + 1))%nat
      with (S (length (filter (λ s, is_open (MkMaze W H cs) s.1 s.2 = true)
                    (edge_slots W H))) + 1)%nat by lia.
    f_equal.
    assert (Hclosed1 : is_open (MkMaze W H cs) cur d ≠ true).
    { intros [_ ?]%Hov. congruence. }
    assert (Hclosed2 : is_open (MkMaze W H cs) n (opp d) ≠ true).
    { intros [? _]%Hov. done. }
    apply (filter_length_one_more _ _ _
             (if decide (d = East ∨ d = South) then (cur, d) else (n, opp d)));
      [apply NoDup_edge_slots | | |].
    + case_decide as Hd; apply elem_of_edge_slots; [done|].
      split; [done|]. destruct d; simpl; tauto.
    + by case_decide.
    + intros [c e] [_ He]%elem_of_edge_slots. gen_simpl. rewrite Hopen by done.
      case_decide as Hd.
      * split; [|intros [?|[= -> ->]]; auto].
        intros [?|[[-> ->]|[-> ->]]]; [by left | by right |].
        destruct d; simpl in *; intuition discriminate.
      * split; [|intros [?|[= -> ->]]; auto].
        intros [?|[[-> ->]|[-> ->]]]; [by left | tauto | by right].
  - rewrite pushes_snoc. apply NoDup_app. split; [done|]. split.
    + intros c Hc%Hpv ->%list_elem_of_singleton. done.
    + apply NoDup_singleton.
  - intros c. rewrite pushes_snoc, elem_of_app, list_elem_of_singleton, Hpv.
    rewrite elem_of_union, elem_of_singleton. tauto.
  - rewrite pushes_snoc, pops_snoc, app_nil_r, Hpp. by rewrite (assoc_L (++)).
Qed.

Lemma gen_inv_pop st cur :
  gen_inv W H st →
  last (g_stack st) = Some cur →
  (∀ d, in_bounds W H (step cur d) → step cur d ∈ g_visited st) →
  gen_inv W H
    (MkGen (g_cells st) (removelast (g_stack st)) (g_visited st)
           (g_rng st) (g_ops st ++ [Pop cur])).
Proof.
  intros Hinv Hlast Hnb. destruct st as [cs stack visited g ops].
  destruct Hinv as [Hdom Hvb Hsv Hstart Hfin Hov Hsym Hconn Hun Hedges Hnd Hpv Hpp].
  gen_simpl. apply last_Some in Hlast as [rest ->].
  rewrite removelast_last.
  constructor; gen_simpl; try done.
  - intros c Hc. apply Hsv, elem_of_app. by left.
  - intros c d Hc Hnot Hb. destruct (decide (c = cur)) as [->|Hne]; [by apply Hnb|].
    apply Hfin; [done | | done].
    intros [?|?%list_elem_of_singleton]%elem_of_app; done.
  - by rewrite pushes_snoc, app_nil_r.
  - intros c. by rewrite pushes_snoc, app_nil_r.
  - rewrite pushes_snoc, pops_snoc, app_nil_r, Hpp, <-!(assoc_L (++)).
    apply Permutation_app_head, Permutation_app_comm.
Qed.

Lemma gen_step_inv st st' :
  gen_inv W H st → gen_step W H st st' → gen_inv W H st'.
Proof.
  intros Hinv Hstep. destruct Hstep as [st cur d w1 w2 g' ? ? ? ? ?|st cur ? ?].
  - by apply gen_inv_push.
  - by apply gen_inv_pop.
Qed.

Lemma elem_of_cand c t : t ∈ cand c ↔ ∃ d, t = (step c d, d, opp d).
Proof.
  unfold cand. rewrite !elem_of_cons, elem_of_nil. split.
  - intros [->|[->|[->|[->|[]]]]];
      [by exists North | by exists South | by exists East | by exists West].
  - intros [[] ->]; simpl; tauto.
Qed.

(** An iteration of the loop raises no exception and takes one of the
    two transitions. *)
Lemma gen_body_step st cur :
  gen_inv W H st → last (g_stack st) = Some cur →
  ∃ st', gen_body W H st cur = Ok st' ∧ gen_step W H st st'.
Proof.
  intros Hinv Hlast. unfold gen_body.
  destruct (filter (is_candidate W H (g_visited st)) (cand cur)) as [|t ts] eqn:Hf.
  - eexists. split; [done|]. apply gen_step_pop; [done|].
    intros d Hb. destruct (decide (step cur d ∈ g_visited st)) as [|Hnv]; [done|].
    exfalso. eapply (filter_nil_not_elem_of _ _ (step cur d, d, opp d) Hf).
    + by split.
    + apply elem_of_cand. eauto.
  - rewrite <-Hf. unfold choice.
    destruct (randbelow (g_rng st) _) as [i g'] eqn:Hr.
    pose proof (randbelow_lt (g_rng st)
      (length (filter (is_candidate W H (g_visited st)) (cand cur)))) as Hlt.
    rewrite Hr in Hlt. simpl in Hlt.
    destruct (lookup_lt_is_Some_2 _ _ (Hlt ltac:(by rewrite Hf))) as [[[n dcur] dnb] Hi].
    rewrite Hi.
    apply list_elem_of_lookup_2, list_elem_of_filter in Hi as [[Hb Hnv] Hc].
    apply elem_of_cand in Hc as [d [= -> -> ->]]. simpl in Hb, Hnv.
    assert (Hcur : in_bounds W H cur).
    { apply (inv_vis_bounds _ _ _ Hinv), (inv_stack_vis _ _ _ Hinv).
      by apply last_Some_elem_of. }
    destruct (proj2 (inv_dom _ _ _ Hinv cur) Hcur) as [w1 H1].
    destruct (proj2 (inv_dom _ _ _ Hinv (step cur d)) Hb) as [w2 H2].
    unfold clear_wall. rewrite H1.
    rewrite lookup_insert_ne by (apply not_eq_sym, step_neq). rewrite H2.
    eexists. split; [done|]. by apply gen_step_push.
Qed.

Lemma visited_size_le st :
  gen_inv W H st → (size (g_visited st) ≤ length (all_cells W H))%nat.
Proof.
  intros Hinv.
  rewrite <-(size_list_to_set (C := gset Cell)) by apply NoDup_all_cells.
  apply subseteq_size. intros c Hc.
  apply elem_of_list_to_set, elem_of_all_cells. by eapply inv_vis_bounds.
Qed.

(** Every iteration decreases the measure by one. *)
Lemma gen_step_measure st st' :
  gen_inv W H st → gen_step W H st st' →
  S (gen_measure W H st') = gen_measure W H st.
Proof.
  intros Hinv Hstep.
  pose proof (visited_size_le _ (gen_step_inv _ _ Hinv Hstep)) as Hle.
  destruct Hstep as [st cur d w1 w2 g' ? ? ? ? ?|st cur Hlast ?];
    unfold gen_measure in *; cbn [g_stack g_visited] in *.
  - rewrite size_union, size_singleton in * by set_solver.
    rewrite length_app. simpl. lia.
  - apply last_Some in Hlast as [rest ->].
    rewrite removelast_last, length_app. simpl. lia.
Qed.

(** The loop terminates: fuel beyond the measure is enough, no exception
    is raised, the invariant holds when the stack is empty. *)
Lemma gen_loop_total fuel st :
  gen_inv W H st → (gen_measure W H st ≤ fuel)%nat →
  ∃ st', gen_loop fuel W H st = Some (Ok st') ∧
         gen_inv W H st' ∧ g_stack st' = [].
Proof.
  revert st. induction fuel as [|fuel IH]; intros st Hinv Hm.
  - destruct (last (g_stack st)) as [cur|] eqn:Hlast.
    + apply last_Some in Hlast as [rest Hst]. unfold gen_measure in Hm.
      rewrite Hst, length_app in Hm. simpl in Hm. lia.
    + exists st. simpl. rewrite Hlast. by apply last_None in Hlast.
  - simpl. destruct (last (g_stack st)) as [cur|] eqn:Hlast.
    + destruct (gen_body_step _ _ Hinv Hlast) as (st1 & -> & Hstep).
      apply IH; [by eapply gen_step_inv|].
      pose proof (gen_step_measure _ _ Hinv Hstep). lia.
    + exists st. by apply last_None in Hlast.
Qed.

(** The result of the loop does not depend on the fuel left over. *)
Lemma gen_loop_mono fuel fuel' st r :
  gen_loop fuel W H st = Some r → (fuel ≤ fuel')%nat →
  gen_loop fuel' W H st = Some r.
Proof.
  revert fuel' st. induction fuel as [|fuel IH]; intros fuel' st Hrun Hle.
  - destruct fuel'; simpl in *; by destruct (last (g_stack st)).
  - destruct fuel' as [|fuel']; [lia|]. simpl in *.
    destruct (last (g_stack st)) as [cur|]; [|done].
    destruct (gen_body W H st cur); [|done]. apply IH; [done | lia].
Qed.

(** The measure of the initial state. *)
Lemma gen_measure_init cs g :
  1 ≤ W → 1 ≤ H → (gen_measure W H (gen_init cs g) < 2 * Z.to_nat (W * H))%nat.
Proof.
  intros. unfold gen_measure, gen_init. cbn [g_stack g_visited].
  rewrite size_singleton, length_all_cells. simpl. nia.
Qed.
End GeneratorInvariant.

(** ** Generated mazes *)

Section Generated.
Context `{R : Random} (W H : Z).

(** A set of cells that contains [(0, 0)] and is closed under the
    neighbours in the grid contains the whole grid. *)
Lemma grid_closure (visited : gset Cell) :
  (0, 0) ∈ visited →
  (∀ c d, c ∈ visited → in_bounds W H (step c d) → step c d ∈ visited) →
  ∀ c, in_bounds W H c → c ∈ visited.
Proof.
  intros H0 Hcl [x y] [[Hx0 HxW] [Hy0 HyH]]. simpl in *.
  assert (Hrow : ∀ x', 0 ≤ x' → x' < W → (x', 0) ∈ visited).
  { apply (natlike_ind (λ x', x' < W → (x', 0) ∈ visited)); [done|].
    intros x' Hx' IH Hlt.
    replace (Z.succ x', 0) with (step (x', 0) East) by (simpl; f_equal; lia).
    apply Hcl; [apply IH; lia|]. unfold in_bounds. simpl. lia. }
  revert HyH. pattern y. apply natlike_ind; [by auto | | done].
  intros y' Hy' IH Hlt.
  replace (x, Z.succ y') with (step (x, y') South) by (simpl; f_equal; lia).
  apply Hcl; [apply IH; lia|]. unfold in_bounds. simpl. lia.
Qed.

Lemma final_all_visited st :
  gen_inv W H st → g_stack st = [] →
  ∀ c, in_bounds W H c → c ∈ g_visited st.
Proof.
  intros Hinv Hst. apply grid_closure; [by eapply inv_start|].
  intros c d Hc Hb. eapply inv_finished; [done..| |done].
  rewrite Hst. apply not_elem_of_nil.
Qed.

Lemma final_visited_size st :
  gen_inv W H st → g_stack st = [] →
  size (g_visited st) = length (all_cells W H).
Proof.
  intros Hinv Hst.
  rewrite <-(size_list_to_set (C := gset Cell)) by apply NoDup_all_cells.
  f_equal. apply set_eq. intros c.
  rewrite elem_of_list_to_set, elem_of_all_cells. split.
  - by eapply inv_vis_bounds.
  - by apply final_all_visited.
Qed.

(** When the loop ends the open graph is a spanning tree. *)
Lemma final_perfect st :
  gen_inv W H st → g_stack st = [] → perfect (maze_of W H st).
Proof.
  intros Hinv Hst.
  pose proof (final_all_visited _ Hinv Hst) as Hall.
  pose proof (open_edge_sym_of _ (inv_sym _ _ _ Hinv)) as Hsym.
  assert (Hconn : connected (maze_of W H st)).
  { intros a b Ha Hb. gen_simpl.
    destruct (inv_conn _ _ _ Hinv a (Hall a Ha)) as [p Hp].
    destruct (inv_conn _ _ _ Hinv b (Hall b Hb)) as [q Hq].
    destruct (walk_inv_head _ _ _ _ Hq) as [q' ->].
    exists (reverse p ++ q'). eapply walk_app; [|done]. by apply walk_rev. }
  split; [done|]. split; [|split].
  - pose proof (inv_edges _ _ _ Hinv) as He.
    rewrite final_visited_size, length_all_cells in He by done.
    gen_simpl. destruct (decide (0 < W)), (decide (0 < H)); nia.
  - intros a b p Hp Hnd Hba.
    destruct (decide (a = b)) as [->|Hne].
    + rewrite (walk_loop _ _ _ Hp Hnd). simpl. lia.
    + assert (p = [a; b]) as ->; [|done].
      eapply (inv_unique _ _ _ Hinv); [done | done | |].
      * apply walk_step with b; [by apply Hsym | constructor].
      * apply NoDup_cons. split; [|apply NoDup_singleton].
        by intros ?%list_elem_of_singleton.
  - intros a b Ha Hb. destruct (Hconn a b Ha Hb) as [p0 Hp0].
    destruct (walk_simple _ _ _ _ Hp0) as (p & Hp & Hnd & _).
    exists p. split; [done|]. intros q Hq Hndq.
    by eapply (inv_unique _ _ _ Hinv).
Qed.

(** [create] terminates on a grid with at least one cell, without an
    exception, in a state that satisfies the invariant. *)
Lemma generate_run_total g :
  1 ≤ W → 1 ≤ H →
  ∃ st, (∀ fuel, (grid_fuel W H ≤ fuel)%nat →
           generate_run fuel (MkMaze W H (init_cells W H)) g = Some (Ok st)) ∧
        gen_inv W H st ∧ g_stack st = [].
Proof.
  intros HW HH. unfold generate_run. gen_simpl.
  pose proof (gen_measure_init W H (init_cells W H) g HW HH) as Hm.
  destruct (gen_loop_total W H (grid_fuel W H) _ (gen_inv_init W H g HW HH))
    as (st & Hrun & Hinv & Hst); [unfold grid_fuel, gen_init in *; lia|].
  exists st. split; [|done]. intros fuel Hfuel. by eapply gen_loop_mono.
Qed.

Lemma create_total seed g :
  1 ≤ W → 1 ≤ H →
  ∃ st g0, (∀ fuel, (grid_fuel W H ≤ fuel)%nat →
             create fuel W H seed g = Some (Ok (maze_of W H st, g_rng st)) ∧
             generate_run fuel (MkMaze W H (init_cells W H)) g0 = Some (Ok st)) ∧
           gen_inv W H st ∧ g_stack st = [].
Proof.
  intros HW HH.
  destruct (generate_run_total
              (match seed with Some s => seed_rng s | None => g end) HW HH)
    as (st & Hrun & Hinv & Hst).
  exists st, (match seed with Some s => seed_rng s | None => g end).
  split; [|done]. intros fuel Hfuel.
  unfold create, _generate. by rewrite (Hrun fuel Hfuel).
Qed.

(** Every maze [create] returns is the final state of such a run. *)
Lemma generated_final m :
  1 ≤ W → 1 ≤ H → generated W H m →
  ∃ st, m = maze_of W H st ∧ gen_inv W H st ∧ g_stack st = [].
Proof.
  intros HW HH (fuel & seed & g & g' & Hc).
  destruct (create_total seed g HW HH) as (st & g0 & Hrun & Hinv & Hst).
  exists st. split; [|done].
  destruct (Hrun (max fuel (grid_fuel W H)) ltac:(lia)) as [Hmax _].
  unfold create, _generate in Hc, Hmax.
  destruct (generate_run fuel _ _) as [[st1|e]|] eqn:Hg; [|done..].
  unfold generate_run in *.
  rewrite (gen_loop_mono _ _ _ (max fuel (grid_fuel W H)) _ _ Hg) in Hmax by lia.
  unfold maze_of in *. cbn [width height cells] in *. congruence.
Qed.

Lemma generated_dims m : generated W H m → width m = W ∧ height m = H.
Proof.
  intros (fuel & seed & g & g' & Hc). unfold create, _generate in Hc.
  destruct (generate_run _ _ _) as [[st|e]|]; by simplify_eq.
Qed.

Lemma generated_perfect m : 1 ≤ W → 1 ≤ H → generated W H m → perfect m.
Proof.
  intros HW HH Hg. destruct (generated_final m HW HH Hg) as (st & -> & ? & ?).
  by apply final_perfect.
Qed.

Lemma generated_well_formed m : 1 ≤ W → 1 ≤ H → generated W H m → well_formed m.
Proof.
  intros HW HH Hg. destruct (generated_final m HW HH Hg) as (st & -> & Hinv & ?).
  intros c Hc. by apply (inv_dom _ _ _ Hinv).
Qed.

Lemma generated_sym m :
  1 ≤ W → 1 ≤ H → generated W H m → ∀ a b, open_edge m a b → open_edge m b a.
Proof.
  intros HW HH Hg. destruct (generated_final m HW HH Hg) as (st & -> & Hinv & ?).
  apply open_edge_sym_of. by eapply inv_sym.
Qed.
End Generated.

(** ** The solver *)

Lemma neighbors_open_run m c :
  neighbors_open c m =
  Some (match cells m !! c with
        | Some w => Ok (open_neighbors_of m w c)
        | None => Raise (KeyError c)
        end, m).
Proof.
  destruct c as [x y].
  unfold neighbors_open, open_neighbors_of, bind, read_wall, read_width, read_height, ret.
  destruct (cells m !! (x, y)) as [w|] eqn:Hw; [|done].
  by repeat (cbn beta iota; rewrite Hw).
Qed.

(** On a cell of the grid [neighbors_open] lists the open edges. *)
Lemma elem_of_open_neighbors m w c b :
  in_bounds (width m) (height m) c → cells m !! c = Some w →
  b ∈ open_neighbors_of m w c ↔ open_edge m c b.
Proof.
  intros Hc Hw. unfold open_edge. setoid_rewrite is_open_inv. rewrite Hw.
  destruct c as [x y]. destruct Hc as [Hx Hy]. unfold open_neighbors_of, in_bounds.
  simpl in *. split.
  - intros Hb.
    repeat match type of Hb with
    | context [if ?t then _ else _] =>
        let E := fresh "E" in destruct t eqn:E;
        [apply andb_true_iff in E as [?%negb_true_iff ?]|]
    end;
    rewrite ?elem_of_app, ?list_elem_of_singleton, ?elem_of_nil in Hb;
    repeat match goal with H : _ ∨ _ |- _ => destruct H as [H|H] end;
    try done; subst b;
    first [ exists North; simpl; split; [done|]; split; [lia|]; split; [lia|]; by eauto
          | exists South; simpl; split; [done|]; split; [lia|]; split; [lia|]; by eauto
          | exists East; simpl; split; [done|]; split; [lia|]; split; [lia|]; by eauto
          | exists West; simpl; split; [done|]; split; [lia|]; split; [lia|]; by eauto ].
  - intros (d & <- & _ & Hb & w' & [= <-] & Hd).
    destruct d; simpl in Hb, Hd |- *; rewrite Hd; simpl;
      repeat match goal with
      | |- context [?a <=? ?b] => destruct (Z.leb_spec a b)
      | |- context [?a <? ?b] => destruct (Z.ltb_spec a b)
      end; try lia;
      repeat match goal with
      | |- context [if ?t then _ else _] => destruct t
      end;
      rewrite ?elem_of_app, ?list_elem_of_singleton; tauto.
Qed.

Lemma walk_back_None fuel cf acc : walk_back fuel cf None acc = Some acc.
Proof. by destruct fuel. Qed.

Section Search.
Context (m : Maze) (start : Cell).

Lemma back_dom cf c l x :
  back m start cf c l → x ∈ l → is_Some (cf !! x).
Proof.
  induction 1 as [Hs|c p l Hc He Hb IH Hnin].
  - intros ->%list_elem_of_singleton. eauto.
  - intros [->|?]%elem_of_cons; eauto.
Qed.

Lemma back_insert cf c l n v :
  back m start cf c l → cf !! n = None → back m start (<[n := v]> cf) c l.
Proof.
  intros Hb Hn. induction Hb as [Hs|c p l Hc He Hb IH Hnin].
  - apply back_start. rewrite lookup_insert_ne; [done | congruence].
  - apply back_step with p; [|done..]. rewrite lookup_insert_ne; [done | congruence].
Qed.

(** The chain of predecessors, reversed, is a simple path of open edges
    from [start]. *)
Lemma back_walk cf c l :
  back m start cf c l → walk (open_edge m) start (reverse l) c ∧ NoDup l.
Proof.
  induction 1 as [Hs|c p l Hc He Hb [IHw IHn] Hnin].
  - split; [constructor | apply NoDup_singleton].
  - split; [|by apply NoDup_cons]. rewrite reverse_cons. by eapply walk_snoc.
Qed.

(** The reconstruction loop reads exactly that chain. *)
Lemma walk_back_back cf c l fuel acc :
  back m start cf c l → (length l ≤ fuel)%nat →
  walk_back fuel cf (Some c) acc = Some (acc ++ l).
Proof.
  intros Hb. revert fuel acc.
  induction Hb as [Hs|c p l Hc He Hb IH Hnin]; intros fuel acc Hlen;
    (destruct fuel as [|fuel]; [simpl in Hlen; lia|]); simpl.
  - rewrite Hs. simpl. apply walk_back_None.
  - rewrite Hc. simpl. rewrite IH by (simpl in Hlen; lia).
    by rewrite <-(assoc_L (++)).
Qed.

Lemma bfs_inv_init :
  in_bounds (width m) (height m) start → bfs_inv m start [start] {[start := None]}.
Proof.
  intros Hstart.
  assert (Hone : ∀ c, is_Some (({[start := None]} : gmap Cell (option Cell)) !! c) →
                      c = start).
  { intros c [v Hv]. by apply lookup_singleton_Some in Hv as [-> _]. }
  constructor.
  - apply lookup_singleton_eq.
  - intros c ->%Hone. exists [start]. apply back_start, lookup_singleton_eq.
  - by intros c ->%Hone.
  - intros c ->%list_elem_of_singleton. rewrite lookup_singleton_eq. eauto.
  - intros c ->%Hone. left. left.
Qed.

Lemma bfs_size_le queue cf :
  bfs_inv m start queue cf →
  (size cf ≤ length (all_cells (width m) (height m)))%nat.
Proof.
  intros Hinv. rewrite <-size_dom.
  rewrite <-(size_list_to_set (C := gset Cell)) by apply NoDup_all_cells.
  apply subseteq_size. intros c Hc%elem_of_dom.
  apply elem_of_list_to_set, elem_of_all_cells. by eapply bi_bounds.
Qed.

(** One pass of the body of the [for] loop over the neighbours of [cur]. *)
Lemma discover_inv cur queue cf nb :
  bfs_inv m start (cur :: queue) cf → open_edge m cur nb →
  let acc := discover cur (queue, cf) nb in
  bfs_inv m start (cur :: acc.1) acc.2 ∧
  is_Some (acc.2 !! nb) ∧
  (∀ c, is_Some (cf !! c) → is_Some (acc.2 !! c)) ∧
  ∃ k, size acc.2 = (size cf + k)%nat ∧ length acc.1 = (length queue + k)%nat.
Proof.
  intros [Hst Hback Hbounds Hqueue Hclosed] He. unfold discover. simpl.
  destruct (cf !! nb) as [v|] eqn:Hnb; simpl.
  - split; [done|]. split; [by rewrite Hnb|]. split; [done | exists 0%nat; lia].
  - assert (Hmono : ∀ c, is_Some (cf !! c) → is_Some (<[nb := Some cur]> cf !! c)).
    { intros c Hc. rewrite lookup_insert_is_Some. destruct (decide (nb = c)); auto. }
    split; [|split; [|split]].
    + constructor.
      * rewrite lookup_insert_ne; [done | congruence].
      * intros c [->|[Hne Hc]]%lookup_insert_is_Some.
        -- destruct (Hback cur) as [l Hl]; [apply Hqueue; left|].
           exists (c :: l). apply back_step with cur.
           ++ apply lookup_insert_eq.
           ++ done.
           ++ by apply back_insert.
           ++ intros Hin. apply (back_dom _ _ _ _ Hl) in Hin as [? ?]. congruence.
        -- destruct (Hback c Hc) as [l Hl]. exists l. by apply back_insert.
      * intros c [->|[Hne Hc]]%lookup_insert_is_Some; [|auto].
        destruct He as (d & <- & (_ & ? & _)%is_open_inv). done.
      * intros c [->|[?| ->%list_elem_of_singleton]%elem_of_app]%elem_of_cons.
        -- apply Hmono, Hqueue. left.
        -- apply Hmono, Hqueue. by right.
        -- rewrite lookup_insert_eq. eauto.
      * intros c [->|[Hne Hc]]%lookup_insert_is_Some.
        -- left. right. apply elem_of_app. right. left.
        -- destruct (Hclosed c Hc) as [[->|Hin]%elem_of_cons|Hcl].
           ++ left. left.
           ++ left. right. apply elem_of_app. by left.
           ++ right. intros b Hb. by apply Hmono, Hcl.
    + rewrite lookup_insert_eq. eauto.
    + done.
    + exists 1%nat. rewrite map_size_insert_None, length_app by done. simpl. lia.
Qed.

Lemma discover_fold_inv cur nbs queue cf :
  bfs_inv m start (cur :: queue) cf →
  (∀ nb, nb ∈ nbs → open_edge m cur nb) →
  let acc := foldl (discover cur) (queue, cf) nbs in
  bfs_inv m start (cur :: acc.1) acc.2 ∧
  (∀ nb, nb ∈ nbs → is_Some (acc.2 !! nb)) ∧
  (∀ c, is_Some (cf !! c) → is_Some (acc.2 !! c)) ∧
  ∃ k, size acc.2 = (size cf + k)%nat ∧ length acc.1 = (length queue + k)%nat.
Proof.
  revert queue cf. induction nbs as [|nb nbs IH]; intros queue cf Hinv Hnbs; simpl.
  - split; [done|]. split; [by intros ? ?%elem_of_nil|].
    split; [done | exists 0%nat; lia].
  - destruct (discover_inv cur queue cf nb Hinv)
      as (Hinv1 & Hnb1 & Hmono1 & k1 & Hsz1 & Hlen1); [apply Hnbs; left|].
    destruct (discover cur (queue, cf) nb) as [q1 cf1]. simpl in *.
    destruct (IH q1 cf1 Hinv1) as (Hinv2 & Hnb2 & Hmono2 & k2 & Hsz2 & Hlen2);
      [intros; apply Hnbs; by right|].
    split; [done|]. split; [|split; [auto | exists (k1 + k2)%nat; lia]].
    intros c [->|?]%elem_of_cons; auto.
Qed.

Hypothesis Hwf : well_formed m.

(** The search loop terminates without an exception and leaves the maze
    as it was; it ends with the goal discovered or with every discovered
    cell expanded. *)
Lemma bfs_loop_spec goal fuel queue cf :
  bfs_inv m start queue cf → (bfs_measure m queue cf ≤ fuel)%nat →
  ∃ queue' cf',
    bfs_loop fuel goal queue cf m = Some (Ok cf', m) ∧
    bfs_inv m start queue' cf' ∧
    (queue' = [] ∨ is_Some (cf' !! goal)).
Proof.
  revert queue cf. induction fuel as [|fuel IH]; intros queue cf Hinv Hm;
    destruct queue as [|cur queue].
  - exists [], cf. by auto.
  - unfold bfs_measure in Hm. cbn [length] in Hm. lia.
  - exists [], cf. by auto.
  - simpl. destruct (decide (cur = goal)) as [->|Hne].
    { exists (goal :: queue), cf. split; [done|]. split; [done|].
      right. eapply bi_queue; [done | left]. }
    unfold bind. rewrite neighbors_open_run.
    assert (Hb : in_bounds (width m) (height m) cur).
    { eapply bi_bounds; [done|]. eapply bi_queue; [done | left]. }
    destruct (Hwf cur Hb) as [w Hw]. rewrite Hw.
    destruct (discover_fold_inv cur (open_neighbors_of m w cur) queue cf Hinv)
      as (Hinv' & Hnbs & Hmono & k & Hsz & Hlen).
    { intros nb Hnb. by apply (elem_of_open_neighbors m w cur nb Hb Hw). }
    destruct (foldl (discover cur) (queue, cf) (open_neighbors_of m w cur))
      as [q' cf'] eqn:Hfold. simpl in *.
    assert (Hinv'' : bfs_inv m start q' cf').
    { destruct Hinv' as [Hst Hback Hbounds Hqueue Hclosed].
      constructor; [done | done | done | |].
      - intros c Hc. apply Hqueue. by right.
      - intros c Hc. destruct (Hclosed c Hc) as [[->|?]%elem_of_cons|?]; [|auto..].
        right. intros b Hbe. by apply Hnbs, (elem_of_open_neighbors m w cur b Hb Hw). }
    apply IH; [done|].
    pose proof (bfs_size_le _ _ Hinv''). pose proof (bfs_size_le _ _ Hinv).
    unfold bfs_measure in *. cbn [length] in Hm. lia.
Qed.

(** A cell set that contains [start] and is closed under open edges
    contains every cell a walk from [start] reaches. *)
Lemma closed_reaches (cf : gmap Cell (option Cell)) a l b :
  walk (open_edge m) a l b → is_Some (cf !! a) →
  (∀ c, is_Some (cf !! c) → ∀ b, open_edge m c b → is_Some (cf !! b)) →
  is_Some (cf !! b).
Proof. induction 1; eauto. Qed.

(** [solve_bfs] on a grid with all its entries, from a cell of the grid:
    it returns, the maze is unchanged, and the result is a simple path of
    open edges from [start] to [goal] when there is a walk at all, and
    [[goal]] when there is none. *)
Lemma solve_bfs_spec goal fuel :
  in_bounds (width m) (height m) start →
  (grid_fuel (width m) (height m) ≤ fuel)%nat →
  ∃ p, solve_bfs fuel start (Some goal) m = Some (Ok p, m) ∧
       ((walk (open_edge m) start p goal ∧ NoDup p) ∨
        (p = [goal] ∧ ∀ l, ¬ walk (open_edge m) start l goal)).
Proof.
  intros Hstart Hfuel.
  assert (HN : (1 ≤ length (all_cells (width m) (height m)))%nat).
  { apply elem_of_all_cells in Hstart.
    destruct (all_cells (width m) (height m)); [by apply elem_of_nil in Hstart|].
    simpl. lia. }
  assert (Hfuel' : (2 * length (all_cells (width m) (height m)) ≤ fuel)%nat).
  { rewrite length_all_cells. unfold grid_fuel in Hfuel.
    destruct Hstart as [? ?]. rewrite Z2Nat.inj_mul in Hfuel by lia. lia. }
  destruct (bfs_loop_spec goal fuel [start] {[start := None]} (bfs_inv_init Hstart))
    as (q' & cf' & Hrun & Hinv & Hend).
  { unfold bfs_measure. rewrite map_size_singleton. simpl. lia. }
  unfold solve_bfs, bind, ret. rewrite Hrun.
  destruct (cf' !! goal) as [v|] eqn:Hgoal.
  - destruct (bi_back _ _ _ _ Hinv goal) as [l Hl]; [by eauto|].
    destruct (back_walk _ _ _ Hl) as [Hw Hnd].
    rewrite (walk_back_back _ _ _ _ [] Hl).
    + exists (reverse l). split; [done|]. left. split; [done|]. by apply NoDup_reverse.
    + assert (l ⊆+ all_cells (width m) (height m)) as Hsub%submseteq_length; [|lia].
      apply NoDup_submseteq; [done|]. intros x Hx. apply elem_of_all_cells.
      eapply bi_bounds; [done|]. by eapply back_dom.
  - destruct fuel as [|fuel]; [lia|]. simpl. rewrite Hgoal. simpl.
    rewrite walk_back_None. exists [goal]. split; [done|]. right. split; [done|].
    intros l Hl. destruct Hend as [->|[? ?]]; [|congruence].
    assert (is_Some (cf' !! goal)) as [? ?]; [|congruence].
    eapply closed_reaches; [done | | ].
    + rewrite (bi_start _ _ _ _ Hinv). eauto.
    + intros c Hc b Hb. destruct (bi_closed _ _ _ _ Hinv c Hc) as [[]%elem_of_nil|Hcl].
      by apply Hcl.
Qed.
End Search.

(** The walks of a maze stay inside the grid. *)
Lemma walk_in_bounds m a l b :
  walk (open_edge m) a l b → a ≠ b → in_bounds (width m) (height m) b.
Proof.
  induction 1 as [a|a b l c (d & <- & (_ & Hb & _)%is_open_inv) Hw IH]; [done|].
  intros _. destruct (decide (step a d = c)) as [<-|Hne]; auto.
Qed.

Lemma walk_lookup {V} (E : V → V → Prop) a l b i u v :
  walk E a l b → l !! i = Some u → l !! S i = Some v → E u v.
Proof.
  intros Hw. revert i. induction Hw as [a|a b l c Hab Hw IH]; intros i Hu Hv.
  - by destruct i.
  - destruct (walk_inv_head _ _ _ _ Hw) as [l' ->].
    destruct i as [|i]; simpl in *; [by simplify_eq|]. by eapply IH.
Qed.

Lemma walk_head {V} (E : V → V → Prop) a l b : walk E a l b → head l = Some a.
Proof. by intros [l' ->]%walk_inv_head. Qed.

(** *** The solver only reads the maze *)

Lemma bfs_loop_frame fuel goal queue cf m r m' :
  bfs_loop fuel goal queue cf m = Some (r, m') → m' = m.
Proof.
  revert queue cf. induction fuel as [|fuel IH]; intros [|cur queue] cf; simpl;
    unfold ret, out_of_fuel; try congruence.
  destruct (decide (cur = goal)); [unfold ret; congruence|].
  unfold bind. rewrite neighbors_open_run.
  destruct (cells m !! cur); [apply IH | congruence].
Qed.

Lemma solve_bfs_frame fuel start goal m r m' :
  solve_bfs fuel start goal m = Some (r, m') → m' = m.
Proof.
  unfold solve_bfs.
  assert (Hgoal : ∃ g,
    (match goal with
     | Some g => ret g
     | None => let! w := read_width in let! h := read_height in ret (w - 1, h - 1)
     end) m = Some (Ok g, m)).
  { destruct goal; eexists; reflexivity. }
  destruct Hgoal as [g Hg]. unfold bind at 1. rewrite Hg. unfold bind.
  destruct (bfs_loop fuel g [start] _ m) as [[[cf|e] m1]|] eqn:Hloop; [| |done].
  - apply bfs_loop_frame in Hloop as ->.
    destruct (walk_back fuel cf (Some g) []); unfold ret, out_of_fuel; congruence.
  - apply bfs_loop_frame in Hloop as ->. congruence.
Qed.

(** *** Calls outside the grid *)

Lemma solve_bfs_same fuel c m :
  (1 ≤ fuel)%nat → solve_bfs fuel c (Some c) m = Some (Ok [c], m).
Proof.
  intros Hfuel. destruct fuel as [|fuel]; [lia|].
  unfold solve_bfs, bind, ret. simpl. rewrite decide_True by done.
  unfold ret. rewrite lookup_singleton_eq. simpl. by rewrite walk_back_None.
Qed.

Lemma solve_bfs_no_entry fuel start goal m :
  (1 ≤ fuel)%nat → cells m !! start = None → start ≠ goal →
  solve_bfs fuel start (Some goal) m = Some (Raise (KeyError start), m).
Proof.
  intros Hfuel Hs Hne. destruct fuel as [|fuel]; [lia|].
  unfold solve_bfs, bind, ret. simpl. rewrite decide_False by done.
  unfold bind. by rewrite neighbors_open_run, Hs.
Qed.

Lemma solve_bfs_goal_outside fuel start goal m :
  well_formed m →
  in_bounds (width m) (height m) start → ¬ in_bounds (width m) (height m) goal →
  (grid_fuel (width m) (height m) ≤ fuel)%nat →
  solve_bfs fuel start (Some goal) m = Some (Ok [goal], m).
Proof.
  intros Hwf Hs Hg Hfuel.
  destruct (solve_bfs_spec m start Hwf goal fuel Hs Hfuel) as (p & -> & [[Hw _]|[-> _]]);
    [|done].
  exfalso. apply Hg. eapply walk_in_bounds; [done|]. by intros ->.
Qed.

(** [goal=None] is the corner opposite to [(0, 0)]. *)
Lemma solve_bfs_default fuel start m :
  solve_bfs fuel start None m =
  solve_bfs fuel start (Some (width m - 1, height m - 1)) m.
Proof. done. Qed.

Lemma gen_steps_inv `{R : Random} W H st st' :
  gen_inv W H st → rtc (gen_step W H) st st' → gen_inv W H st'.
Proof.
  intros Hinv Hsteps. induction Hsteps as [|st1 st2 st3 Hstep Hsteps IH]; [done|].
  apply IH. by eapply gen_step_inv.
Qed.

(** * The properties of the engine *)

Section Engine.
Context `{R : Random}.

(** C1. For every width [W >= 1] and height [H >= 1], [Maze.create(W, H)]
    returns a maze, and the maze is perfect: its open-adjacency graph is
    connected over the cells of the grid, has exactly [W*H - 1] open edges,
    has no cycle, and has exactly one simple path between any two cells. *)
Theorem create_perfect W H seed g :
  1 ≤ W → 1 ≤ H →
  ∃ m g',
    (∀ fuel, (grid_fuel W H ≤ fuel)%nat →
             create fuel W H seed g = Some (Ok (m, g'))) ∧
    width m = W ∧ height m = H ∧
    connected m ∧
    Z.of_nat (edge_count m) = W * H - 1 ∧
    acyclic m ∧
    unique_simple_paths m.
Proof.
  intros HW HH.
  destruct (create_total W H seed g HW HH) as (st & g0 & Hrun & Hinv & Hst).
  exists (maze_of W H st), (g_rng st).
  split; [intros fuel Hfuel; by apply Hrun|].
  destruct (final_perfect W H st Hinv Hst) as (? & ? & ? & ?). done.
Qed.

(** C3. For every seed [s] and dimensions [W, H >= 1], two calls of
    [Maze.create(W, H, seed=s)], whatever the state of the random
    generator before each, return mazes with the same wall configuration:
    the same entry, with the same four wall booleans, for every cell. *)
Theorem create_deterministic W H s g1 g2 :
  1 ≤ W → 1 ≤ H →
  ∃ m1 m2 g1' g2',
    (∀ fuel, (grid_fuel W H ≤ fuel)%nat →
             create fuel W H (Some s) g1 = Some (Ok (m1, g1'))) ∧
    (∀ fuel, (grid_fuel W H ≤ fuel)%nat →
             create fuel W H (Some s) g2 = Some (Ok (m2, g2'))) ∧
    (∀ c d, (λ w, get_wall w d) <$> cells m1 !! c =
            (λ w, get_wall w d) <$> cells m2 !! c) ∧
    m1 = m2.
Proof.
  intros HW HH.
  destruct (create_total W H (Some s) g1 HW HH) as (st & g0 & Hrun & _).
  exists (maze_of W H st), (maze_of W H st), (g_rng st), (g_rng st).
  split; [intros fuel Hfuel; by apply Hrun|].
  split; [|done]. intros fuel Hfuel. by apply (Hrun fuel Hfuel).
Qed.

(** C4, as the code has it.  For [width <= 0] or [height <= 0],
    [Maze.create] raises no exception: it returns a maze with the given
    width and height and no cell, and leaves the random state as it is
    after the seeding. *)
Theorem create_nonpositive W H seed g fuel :
  W ≤ 0 ∨ H ≤ 0 → (1 ≤ fuel)%nat →
  create fuel W H seed g =
  Some (Ok (MkMaze W H ∅, match seed with Some s => seed_rng s | None => g end)).
Proof.
  intros Hdim Hfuel.
  assert (Hout : ∀ c, ¬ in_bounds W H c) by (unfold in_bounds; lia).
  assert (Hempty : init_cells W H = ∅).
  { apply map_eq. intros c. rewrite lookup_init_cells, lookup_empty.
    by rewrite decide_False. }
  destruct fuel as [|fuel]; [lia|].
  unfold create, _generate, generate_run. rewrite Hempty. gen_simpl. simpl.
  unfold gen_body. gen_simpl.
  assert (filter (is_candidate W H {[(0, 0)]}) (cand (0, 0)) = []) as ->.
  { unfold cand. rewrite !filter_cons, filter_nil.
    rewrite !decide_False; [done|..]; by intros [?%Hout _]. }
  simpl. by destruct fuel.
Qed.

(** C6. For every width [W >= 1] and height [H >= 1] the loop of
    [_generate] terminates with the stack empty; the cells pushed are the
    cells of the grid, each once ([W*H] pushes, the initial one of [(0, 0)]
    included); the cells popped are the cells of the grid, each once; and
    whenever the stack is empty every cell of the grid has been visited. *)
Theorem generate_terminates W H g :
  1 ≤ W → 1 ≤ H →
  ∃ st,
    (∀ fuel, (grid_fuel W H ≤ fuel)%nat →
             generate_run fuel (MkMaze W H (init_cells W H)) g = Some (Ok st)) ∧
    g_stack st = [] ∧
    NoDup (pushes (g_ops st)) ∧ pushes (g_ops st) ≡ₚ all_cells W H ∧
    Z.of_nat (length (pushes (g_ops st))) = W * H ∧
    NoDup (pops (g_ops st)) ∧ pops (g_ops st) ≡ₚ all_cells W H ∧
    (∀ c, in_bounds W H c → c ∈ g_visited st) ∧
    (∀ st', rtc (gen_step W H) (gen_init (init_cells W H) g) st' →
            g_stack st' = [] → ∀ c, in_bounds W H c → c ∈ g_visited st').
Proof.
  intros HW HH.
  destruct (generate_run_total W H g HW HH) as (st & Hrun & Hinv & Hst).
  exists st. split; [done|]. split; [done|].
  pose proof (final_all_visited W H st Hinv Hst) as Hall.
  assert (Hperm : pushes (g_ops st) ≡ₚ all_cells W H).
  { apply NoDup_Permutation; [by eapply inv_push_nodup | apply NoDup_all_cells|].
    intros c. rewrite (inv_push_vis _ _ _ Hinv), elem_of_all_cells.
    split; [by eapply inv_vis_bounds | by apply Hall]. }
  assert (Hpop : pops (g_ops st) ≡ₚ pushes (g_ops st)).
  { rewrite (inv_push_pop _ _ _ Hinv), Hst. by rewrite app_nil_r. }
  split; [by eapply inv_push_nodup|]. split; [done|]. split.
  { rewrite Hperm, length_all_cells. nia. }
  split; [rewrite Hpop; by eapply inv_push_nodup|].
  split; [by rewrite Hpop|]. split; [done|].
  intros st' Hsteps. apply final_all_visited.
  eapply gen_steps_inv; [|done]. by apply gen_inv_init.
Qed.

(** C9. In every generated maze and for every pair of unit-adjacent
    cells of the grid, the wall on one side is present if and only if the
    wall on the facing side is; so [neighbors_open], which reads only the
    walls of the queried cell, lists either cell among the neighbours of
    the other or neither. *)
Theorem wall_symmetry W H m a d :
  generated W H m → in_bounds W H a → in_bounds W H (step a d) →
  (∃ wa wb, cells m !! a = Some wa ∧ cells m !! step a d = Some wb ∧
            get_wall wa d = get_wall wb (opp d)) ∧
  (∃ la lb, neighbors_open a m = Some (Ok la, m) ∧
            neighbors_open (step a d) m = Some (Ok lb, m) ∧
            (step a d ∈ la ↔ a ∈ lb)).
Proof.
  intros Hg Ha Hb.
  assert (HW : 1 ≤ W) by (destruct Ha; lia).
  assert (HH : 1 ≤ H) by (destruct Ha; lia).
  destruct (generated_dims W H m Hg) as [Hwd Hht].
  pose proof (generated_sym W H m HW HH Hg) as Hsym.
  destruct (generated_final W H m HW HH Hg) as (st & -> & Hinv & Hst).
  destruct (proj2 (inv_dom _ _ _ Hinv a) Ha) as [wa Hwa].
  destruct (proj2 (inv_dom _ _ _ Hinv (step a d)) Hb) as [wb Hwb].
  gen_simpl. split.
  - exists wa, wb. split; [done|]. split; [done|].
    pose proof (inv_sym _ _ _ Hinv a d) as H1.
    pose proof (inv_sym _ _ _ Hinv (step a d) (opp d)) as H2.
    rewrite step_back, opp_opp in H2. unfold is_open, maze_of in H1, H2.
    gen_simpl. rewrite ?step_back, Hwa, Hwb in H1, H2.
    rewrite !bool_decide_eq_true_2 in H1, H2 by done. simpl in H1, H2.
    destruct (get_wall wa d), (get_wall wb (opp d)); simpl in *; auto.
    symmetry; auto.
  - rewrite !neighbors_open_run. gen_simpl. rewrite Hwa, Hwb.
    eexists _, _. split; [done|]. split; [done|].
    rewrite !elem_of_open_neighbors by done. split; apply Hsym.
Qed.

(** C2. In every generated maze and for every pair of cells [a], [b] of
    the grid, [solve_bfs(a, b)] returns a sequence of cells that starts
    with [a] and ends with [b], in which consecutive cells are
    unit-adjacent with the wall between them absent (on both sides), and
    which has as few edges as any walk from [a] to [b] in the open graph:
    it is the one simple path of the tree. *)
Theorem solve_bfs_shortest W H m a b fuel :
  generated W H m → in_bounds W H a → in_bounds W H b →
  (grid_fuel W H ≤ fuel)%nat →
  ∃ p,
    solve_bfs fuel a (Some b) m = Some (Ok p, m) ∧
    head p = Some a ∧ last p = Some b ∧
    (∀ i u v, p !! i = Some u → p !! S i = Some v →
              open_edge m u v ∧ open_edge m v u) ∧
    walk (open_edge m) a p b ∧ NoDup p ∧
    (∀ q, walk (open_edge m) a q b → (length p ≤ length q)%nat) ∧
    (∀ q, walk (open_edge m) a q b → NoDup q → q = p).
Proof.
  intros Hg Ha Hb Hfuel.
  assert (HW : 1 ≤ W) by (destruct Ha; lia).
  assert (HH : 1 ≤ H) by (destruct Ha; lia).
  destruct (generated_dims W H m Hg) as [Hwd Hht].
  pose proof (generated_sym W H m HW HH Hg) as Hsym.
  pose proof (generated_well_formed W H m HW HH Hg) as Hwf.
  destruct (generated_perfect W H m HW HH Hg) as (Hconn & _ & _ & _).
  destruct (generated_final W H m HW HH Hg) as (st & Hm & Hinv & _).
  assert (Huniq : unique_paths (open_edge m)).
  { rewrite Hm. by eapply inv_unique. }
  rewrite <-Hwd, <-Hht in Ha, Hb, Hfuel.
  destruct (solve_bfs_spec m a Hwf b fuel Ha Hfuel) as (p & Hrun & [[Hw Hnd]|[_ Hno]]).
  - exists p. split; [done|]. split; [by eapply walk_head|].
    split; [by eapply walk_last|]. split.
    { intros i u v Hu Hv. pose proof (walk_lookup _ _ _ _ _ _ _ Hw Hu Hv). auto. }
    split; [done|]. split; [done|]. split.
    + intros q Hq. destruct (walk_simple _ _ _ _ Hq) as (q' & Hq' & Hndq & Hlen).
      by rewrite (Huniq a b p q' Hw Hnd Hq' Hndq).
    + intros q Hq Hndq. by apply (Huniq a b q p).
  - destruct (Hconn a b Ha Hb) as [l Hl]. by destruct (Hno l).
Qed.

(** C5, as the code has it.  [solve_bfs] has no bounds check and no
    OutOfBounds error.  On a generated [W×H] maze: with [start] outside
    the grid and [goal] another cell, the lookup of [start] in
    [neighbors_open] raises [KeyError]; with [start] equal to [goal] the
    call returns [[start]], inside the grid or not; with [start] inside and
    [goal] outside it returns [[goal]]. *)
Theorem solve_bfs_outside W H m start goal fuel :
  generated W H m → 1 ≤ W → 1 ≤ H → (grid_fuel W H ≤ fuel)%nat →
  (¬ in_bounds W H start → start ≠ goal →
     solve_bfs fuel start (Some goal) m = Some (Raise (KeyError start), m)) ∧
  (start = goal → solve_bfs fuel start (Some goal) m = Some (Ok [start], m)) ∧
  (in_bounds W H start → ¬ in_bounds W H goal →
     solve_bfs fuel start (Some goal) m = Some (Ok [goal], m)).
Proof.
  intros Hg HW HH Hfuel.
  assert (Hf1 : (1 ≤ fuel)%nat) by (unfold grid_fuel in Hfuel; nia).
  destruct (generated_dims W H m Hg) as [Hwd Hht].
  pose proof (generated_well_formed W H m HW HH Hg) as Hwf.
  destruct (generated_final W H m HW HH Hg) as (st & Hm & Hinv & _).
  split; [|split].
  - intros Hout Hne. apply solve_bfs_no_entry; [done | | done].
    apply eq_None_not_Some. rewrite Hm. gen_simpl.
    by rewrite (inv_dom _ _ _ Hinv).
  - intros <-. by apply solve_bfs_same.
  - intros Hin Hout. apply solve_bfs_goal_outside; by rewrite ?Hwd, ?Hht.
Qed.

(** C7. In every generated maze and for every pair of cells [a], [b] of
    the grid, the reverse of the sequence [solve_bfs(a, b)] returns is the
    sequence [solve_bfs(b, a)] returns; the two have the same length. *)
Theorem solve_bfs_reverse W H m a b fuel :
  generated W H m → in_bounds W H a → in_bounds W H b →
  (grid_fuel W H ≤ fuel)%nat →
  ∃ p q,
    solve_bfs fuel a (Some b) m = Some (Ok p, m) ∧
    solve_bfs fuel b (Some a) m = Some (Ok q, m) ∧
    reverse p = q ∧ length p = length q.
Proof.
  intros Hg Ha Hb Hfuel.
  assert (HW : 1 ≤ W) by (destruct Ha; lia).
  assert (HH : 1 ≤ H) by (destruct Ha; lia).
  destruct (generated_dims W H m Hg) as [Hwd Hht].
  pose proof (generated_sym W H m HW HH Hg) as Hsym.
  pose proof (generated_well_formed W H m HW HH Hg) as Hwf.
  destruct (generated_perfect W H m HW HH Hg) as (Hconn & _ & _ & _).
  destruct (generated_final W H m HW HH Hg) as (st & Hm & Hinv & _).
  assert (Huniq : unique_paths (open_edge m)).
  { rewrite Hm. by eapply inv_unique. }
  rewrite <-Hwd, <-Hht in Ha, Hb, Hfuel.
  destruct (solve_bfs_spec m a Hwf b fuel Ha Hfuel) as (p & Hp & [[Hwp Hndp]|[_ Hno]]);
    [|destruct (Hconn a b Ha Hb) as [l Hl]; by destruct (Hno l)].
  destruct (solve_bfs_spec m b Hwf a fuel Hb Hfuel) as (q & Hq & [[Hwq Hndq]|[_ Hno]]);
    [|destruct (Hconn b a Hb Ha) as [l Hl]; by destruct (Hno l)].
  exists p, q. split; [done|]. split; [done|].
  assert (reverse p = q) as <-.
  { apply (Huniq b a); [by apply walk_rev | by apply NoDup_reverse | done..]. }
  split; [done|]. by rewrite length_reverse.
Qed.

(** C10. On a maze with an entry for every cell of its grid (generated
    or built by hand) and for cells [start] and [goal] of the grid such
    that no walk of open edges leads from [start] to [goal],
    [solve_bfs(start, goal)] returns the one-element sequence [[goal]]: it
    is not empty and does not begin with [start]. *)
Theorem solve_bfs_unreachable m start goal fuel :
  well_formed m →
  in_bounds (width m) (height m) start → in_bounds (width m) (height m) goal →
  (∀ l, ¬ walk (open_edge m) start l goal) →
  (grid_fuel (width m) (height m) ≤ fuel)%nat →
  solve_bfs fuel start (Some goal) m = Some (Ok [goal], m) ∧
  head [goal] ≠ Some start.
Proof.
  intros Hwf Hs Hg Hno Hfuel. split.
  - destruct (solve_bfs_spec m start Hwf goal fuel Hs Hfuel)
      as (p & -> & [[Hw _]|[-> _]]); [by destruct (Hno p) | done].
  - intros [= ->]. apply (Hno [start]). constructor.
Qed.
End Engine.

(** C8. Solving never changes the maze.  Whatever a call of
    [neighbors_open] or [solve_bfs] does (return or raise), the maze object
    is afterwards what it was before: same width, same height, same walls
    of every cell.  On a maze with an entry for every cell of its grid and
    for cells of the grid both calls do return. *)
Theorem solve_preserves_maze m start goal fuel :
  well_formed m →
  in_bounds (width m) (height m) start → in_bounds (width m) (height m) goal →
  (grid_fuel (width m) (height m) ≤ fuel)%nat →
  (∃ p, solve_bfs fuel start (Some goal) m = Some (Ok p, m)) ∧
  (∃ l, neighbors_open start m = Some (Ok l, m)) ∧
  (∀ fuel' s g r m', solve_bfs fuel' s g m = Some (r, m') →
     m' = m ∧ width m' = width m ∧ height m' = height m ∧
     ∀ c, cells m' !! c = cells m !! c) ∧
  (∀ c r m', neighbors_open c m = Some (r, m') →
     m' = m ∧ width m' = width m ∧ height m' = height m ∧
     ∀ c, cells m' !! c = cells m !! c).
Proof.
  intros Hwf Hs Hg Hfuel. split; [|split; [|split]].
  - destruct (solve_bfs_spec m start Hwf goal fuel Hs Hfuel) as (p & Hp & _). eauto.
  - rewrite neighbors_open_run. destruct (Hwf start Hs) as [w ->]. eauto.
  - by intros fuel' s g r m' ->%solve_bfs_frame.
  - intros c r m'. rewrite neighbors_open_run. by intros [= _ <-].
Qed.

(** * The engine on concrete inputs *)

Lemma demo5_generated : @generated lcg 5 5 demo5.
Proof. exists 50%nat, (Some 42), 0%N, demo5_rng. vm_compute. reflexivity. Qed.

Lemma walled_well_formed : well_formed walled.
Proof.
  intros c Hc. unfold walled in *. simpl in *.
  rewrite lookup_init_cells, decide_True by done. eauto.
Qed.

Lemma walled_unreachable l : ¬ walk (open_edge walled) (0, 0) l (1, 0).
Proof.
  inversion 1 as [|? b ? ? (d & _ & (_ & _ & w & Hw & Hd)%is_open_inv)]; subst.
  unfold walled in Hw. simpl in Hw. rewrite lookup_init_cells in Hw.
  case_decide; [|done]. injection Hw as <-. by destruct d.
Qed.

Lemma create_perfect_witness :
  ∃ m g',
    (∀ fuel, (grid_fuel 5 5 ≤ fuel)%nat →
             @create lcg fuel 5 5 (Some 42) 0%N = Some (Ok (m, g'))) ∧
    width m = 5 ∧ height m = 5 ∧
    connected m ∧ Z.of_nat (edge_count m) = 5 * 5 - 1 ∧
    acyclic m ∧ unique_simple_paths m.
Proof. apply (@create_perfect lcg 5 5 (Some 42) 0%N); lia. Defined.

Lemma solve_bfs_shortest_witness :
  ∃ p,
    solve_bfs 50 (0, 0) (Some (4, 4)) demo5 = Some (Ok p, demo5) ∧
    head p = Some (0, 0) ∧ last p = Some (4, 4) ∧
    (∀ i u v, p !! i = Some u → p !! S i = Some v →
              open_edge demo5 u v ∧ open_edge demo5 v u) ∧
    walk (open_edge demo5) (0, 0) p (4, 4) ∧ NoDup p ∧
    (∀ q, walk (open_edge demo5) (0, 0) q (4, 4) → (length p ≤ length q)%nat) ∧
    (∀ q, walk (open_edge demo5) (0, 0) q (4, 4) → NoDup q → q = p).
Proof.
  apply (@solve_bfs_shortest lcg 5 5 demo5 (0, 0) (4, 4) 50 demo5_generated);
    [unfold in_bounds; simpl; lia | unfold in_bounds; simpl; lia | vm_compute; lia].
Defined.

Lemma create_deterministic_witness :
  ∃ m1 m2 g1' g2',
    (∀ fuel, (grid_fuel 3 4 ≤ fuel)%nat →
             @create lcg fuel 3 4 (Some 7) 1%N = Some (Ok (m1, g1'))) ∧
    (∀ fuel, (grid_fuel 3 4 ≤ fuel)%nat →
             @create lcg fuel 3 4 (Some 7) 99%N = Some (Ok (m2, g2'))) ∧
    (∀ c d, (λ w, get_wall w d) <$> cells m1 !! c =
            (λ w, get_wall w d) <$> cells m2 !! c) ∧
    m1 = m2.
Proof. apply (@create_deterministic lcg 3 4 7 1%N 99%N); lia. Defined.

(** C4 as stated fails: [create(0, 5)] raises nothing and returns a maze
    (of width 0, height 5, without cells). *)
Lemma create_0_5_returns :
  @create lcg 1 0 5 None 0%N = Some (Ok (MkMaze 0 5 ∅, 0%N)) ∧
  ¬ ∃ e, @create lcg 1 0 5 None 0%N = Some (Raise e).
Proof. split; [by vm_compute|]. intros [e He]. vm_compute in He. discriminate. Qed.

Lemma create_nonpositive_witness :
  @create lcg 3 (-2) 4 (Some 7) 0%N = Some (Ok (MkMaze (-2) 4 ∅, 7%N)).
Proof. apply (@create_nonpositive lcg (-2) 4 (Some 7) 0%N 3); lia. Defined.

(** C5 as stated fails: on the 5×5 maze a goal outside the grid gives a
    result and no error, and a start outside the grid gives [KeyError]. *)
Lemma solve_outside_no_OutOfBounds :
  @generated lcg 5 5 demo5 ∧
  solve_bfs 50 (0, 0) (Some (10, 10)) demo5 = Some (Ok [(10, 10)], demo5) ∧
  solve_bfs 50 (10, 10) (Some (4, 4)) demo5 = Some (Raise (KeyError (10, 10)), demo5).
Proof. split; [apply demo5_generated|]. split; by vm_compute. Qed.

Lemma solve_bfs_outside_witness :
  (¬ in_bounds 5 5 (10, 10) → (10, 10) ≠ (4, 4) →
     solve_bfs 50 (10, 10) (Some (4, 4)) demo5 =
     Some (Raise (KeyError (10, 10)), demo5)) ∧
  ((10, 10) = (4, 4) →
     solve_bfs 50 (10, 10) (Some (4, 4)) demo5 = Some (Ok [(10, 10)], demo5)) ∧
  (in_bounds 5 5 (10, 10) → ¬ in_bounds 5 5 (4, 4) →
     solve_bfs 50 (10, 10) (Some (4, 4)) demo5 = Some (Ok [(4, 4)], demo5)).
Proof.
  apply (@solve_bfs_outside lcg 5 5 demo5 (10, 10) (4, 4) 50 demo5_generated);
    [lia | lia | vm_compute; lia].
Defined.

Lemma generate_terminates_witness :
  ∃ st : @gen_state lcg,
    (∀ fuel, (grid_fuel 3 3 ≤ fuel)%nat →
             @generate_run lcg fuel (MkMaze 3 3 (init_cells 3 3)) 7%N = Some (Ok st)) ∧
    g_stack st = [] ∧
    NoDup (pushes (g_ops st)) ∧ pushes (g_ops st) ≡ₚ all_cells 3 3 ∧
    Z.of_nat (length (pushes (g_ops st))) = 3 * 3 ∧
    NoDup (pops (g_ops st)) ∧ pops (g_ops st) ≡ₚ all_cells 3 3 ∧
    (∀ c, in_bounds 3 3 c → c ∈ g_visited st) ∧
    (∀ st', rtc (@gen_step lcg 3 3) (@gen_init lcg (init_cells 3 3) 7%N) st' →
            g_stack st' = [] → ∀ c, in_bounds 3 3 c → c ∈ g_visited st').
Proof. apply (@generate_terminates lcg 3 3 7%N); lia. Defined.

Lemma solve_bfs_reverse_witness :
  ∃ p q,
    solve_bfs 50 (0, 0) (Some (4, 4)) demo5 = Some (Ok p, demo5) ∧
    solve_bfs 50 (4, 4) (Some (0, 0)) demo5 = Some (Ok q, demo5) ∧
    reverse p = q ∧ length p = length q.
Proof.
  apply (@solve_bfs_reverse lcg 5 5 demo5 (0, 0) (4, 4) 50 demo5_generated);
    [unfold in_bounds; simpl; lia | unfold in_bounds; simpl; lia | vm_compute; lia].
Defined.

Lemma solve_preserves_maze_witness :
  (∃ p, solve_bfs 4 (0, 0) (Some (1, 0)) walled = Some (Ok p, walled)) ∧
  (∃ l, neighbors_open (0, 0) walled = Some (Ok l, walled)) ∧
  (∀ fuel' s g r m', solve_bfs fuel' s g walled = Some (r, m') →
     m' = walled ∧ width m' = width walled ∧ height m' = height walled ∧
     ∀ c, cells m' !! c = cells walled !! c) ∧
  (∀ c r m', neighbors_open c walled = Some (r, m') →
     m' = walled ∧ width m' = width walled ∧ height m' = height walled ∧
     ∀ c, cells m' !! c = cells walled !! c).
Proof.
  apply (solve_preserves_maze walled (0, 0) (1, 0) 4 walled_well_formed);
    [unfold in_bounds; simpl; lia | unfold in_bounds; simpl; lia | vm_compute; lia].
Defined.

Lemma wall_symmetry_witness :
  (∃ wa wb, cells demo5 !! (0, 0) = Some wa ∧ cells demo5 !! step (0, 0) South = Some wb ∧
            get_wall wa South = get_wall wb (opp South)) ∧
  (∃ la lb, neighbors_open (0, 0) demo5 = Some (Ok la, demo5) ∧
            neighbors_open (step (0, 0) South) demo5 = Some (Ok lb, demo5) ∧
            (step (0, 0) South ∈ la ↔ (0, 0) ∈ lb)).
Proof.
  apply (@wall_symmetry lcg 5 5 demo5 (0, 0) South demo5_generated);
    unfold in_bounds; simpl; lia.
Defined.

Lemma solve_bfs_unreachable_witness :
  solve_bfs 4 (0, 0) (Some (1, 0)) walled = Some (Ok [(1, 0)], walled) ∧
  head [(1, 0)] ≠ Some (0, 0).
Proof.
  apply (solve_bfs_unreachable walled (0, 0) (1, 0) 4 walled_well_formed);
    [unfold in_bounds; simpl; lia | unfold in_bounds; simpl; lia
    | apply walled_unreachable | vm_compute; lia].
Defined.


(** * Further properties of the engine *)

(** ** Runs of the generator as sequences of transitions *)

Section GeneratorRuns.
Context `{R : Random} (W H : Z).

Lemma gen_loop_steps fuel st st' :
  gen_inv W H st → gen_loop fuel W H st = Some (Ok st') →
  rtc (gen_step W H) st st'.
Proof.
  revert st. induction fuel as [|fuel IH]; intros st Hinv; simpl;
    destruct (last (g_stack st)) as [cur|] eqn:Hlast.
  - done.
  - intros [= <-]. apply rtc_refl.
  - destruct (gen_body_step W H st cur Hinv Hlast) as (st1 & -> & Hstep).
    intros Hrun. eapply rtc_l; [done|]. apply IH; [by eapply gen_step_inv | done].
  - intros [= <-]. apply rtc_refl.
Qed.

Lemma gen_loop_stack_empty fuel st st' :
  gen_loop fuel W H st = Some (Ok st') → g_stack st' = [].
Proof.
  revert st. induction fuel as [|fuel IH]; intros st; simpl;
    destruct (last (g_stack st)) as [cur|] eqn:Hlast.
  - done.
  - intros [= <-]. by apply last_None.
  - destruct (gen_body W H st cur); [apply IH | done].
  - intros [= <-]. by apply last_None.
Qed.

(** A maze returned by [create] is the end of a sequence of transitions
    from the initial state. *)
Lemma generated_run m :
  1 ≤ W → 1 ≤ H → generated W H m →
  ∃ g0 st, rtc (gen_step W H) (gen_init (init_cells W H) g0) st ∧
           g_stack st = [] ∧ m = maze_of W H st.
Proof.
  intros HW HH (fuel & seed & g & g' & Hc). unfold create, _generate in Hc.
  destruct (generate_run fuel _ _) as [[st|e]|] eqn:Hg; [|done..].
  unfold generate_run in Hg. gen_simpl.
  eexists _, st. split; [|split].
  - eapply gen_loop_steps; [|done]. by apply gen_inv_init.
  - by eapply gen_loop_stack_empty.
  - by simplify_eq.
Qed.

(** A property of the initial state that the transitions keep, under the
    loop invariant, holds in every state of a run. *)
Lemma gen_steps_ind (P : gen_state → Prop) g :
  1 ≤ W → 1 ≤ H →
  P (gen_init (init_cells W H) g) →
  (∀ st st', gen_inv W H st → P st → gen_step W H st st' → P st') →
  ∀ st, rtc (gen_step W H) (gen_init (init_cells W H) g) st →
        gen_inv W H st ∧ P st.
Proof.
  intros HW HH Hinit Hstep st Hsteps.
  pose proof (gen_inv_init W H g HW HH) as Hinv. revert Hinv Hinit.
  induction Hsteps as [|st1 st2 st3 Hs Hsteps IH]; intros Hinv HP; [done|].
  apply IH; [by eapply gen_step_inv | by eapply Hstep].
Qed.

(** The wall the generator is about to remove stands on both sides. *)
Lemma push_walls_standing st cur d w1 w2 :
  gen_inv W H st → last (g_stack st) = Some cur →
  in_bounds W H (step cur d) → step cur d ∉ g_visited st →
  g_cells st !! cur = Some w1 → g_cells st !! step cur d = Some w2 →
  in_bounds W H cur ∧ get_wall w1 d = true ∧ get_wall w2 (opp d) = true.
Proof.
  intros Hinv Hlast Hn Hnv H1 H2.
  assert (Hcur : in_bounds W H cur).
  { apply (inv_vis_bounds _ _ _ Hinv), (inv_stack_vis _ _ _ Hinv).
    by apply last_Some_elem_of. }
  split; [done|]. split; apply not_false_iff_true; intros Hw.
  - destruct (inv_open_vis _ _ _ Hinv cur d) as [_ ?]; [|done].
    apply is_open_inv. gen_simpl. eauto.
  - destruct (inv_open_vis _ _ _ Hinv (step cur d) (opp d)) as [? _]; [|done].
    apply is_open_inv. gen_simpl. rewrite step_back. eauto.
Qed.

Lemma walls_inside_step st st' :
  gen_inv W H st → walls_inside W H (g_cells st) → gen_step W H st st' →
  walls_inside W H (g_cells st').
Proof.
  intros Hinv Hin Hstep.
  destruct Hstep as [st cur d w1 w2 g' Hlast Hn Hnv H1 H2|st cur ? ?]; [|done].
  destruct (push_walls_standing st cur d w1 w2) as (Hcur & _ & _); [done..|].
  gen_simpl. unfold open_between. intros c w e Hc He.
  destruct (decide (c = step cur d)) as [->|Hne1].
  { rewrite lookup_insert_eq in Hc. injection Hc as <-.
    rewrite get_set_wall in He. case_decide as Hd; [|by eapply Hin].
    subst e. by rewrite step_back. }
  rewrite lookup_insert_ne in Hc by done.
  destruct (decide (c = cur)) as [->|Hne2].
  { rewrite lookup_insert_eq in Hc. injection Hc as <-.
    rewrite get_set_wall in He. case_decide as Hd; [|by eapply Hin].
    by subst e. }
  rewrite lookup_insert_ne in Hc by done. by eapply Hin.
Qed.

Lemma walls_inside_init : walls_inside W H (init_cells W H).
Proof.
  intros c w d Hc Hd. rewrite lookup_init_cells in Hc.
  case_decide; [|done]. injection Hc as <-. by destruct d.
Qed.

Lemma walls_standing_clear w d :
  get_wall w d = true →
  (walls_standing (set_wall w d false) + 1 = walls_standing w)%nat.
Proof.
  destruct w as [[] [] [] []], d; simpl; intros; try done; unfold walls_standing; simpl; lia.
Qed.
End GeneratorRuns.

(** Sums over a list without repetition when the summand changes at two
    places. *)
Lemma sum_list_change_one {A} `{EqDecision A} (f f' : A → nat) (l : list A) a :
  NoDup l → a ∈ l → (f' a + 1 = f a)%nat → (∀ x, x ≠ a → f' x = f x) →
  (sum_list (f' <$> l) + 1 = sum_list (f <$> l))%nat.
Proof.
  intros Hnd Ha Hfa Hf.
  assert (Hsame : ∀ k : list A, a ∉ k → sum_list (f' <$> k) = sum_list (f <$> k)).
  { induction k as [|x k IH]; [done|]. intros [Hx Hk]%not_elem_of_cons.
    csimpl. rewrite IH by done. rewrite Hf; [done | congruence]. }
  induction l as [|x l IH]; [by apply elem_of_nil in Ha|].
  apply NoDup_cons in Hnd as [Hxl Hnd]. csimpl.
  apply elem_of_cons in Ha as [->|Ha].
  - rewrite Hsame by done. lia.
  - rewrite Hf by (intros ->; done). specialize (IH Hnd Ha). lia.
Qed.

Lemma sum_list_change_two {A} `{EqDecision A} (f f' : A → nat) (l : list A) a b :
  NoDup l → a ∈ l → b ∈ l → a ≠ b →
  (f' a + 1 = f a)%nat → (f' b + 1 = f b)%nat →
  (∀ x, x ≠ a → x ≠ b → f' x = f x) →
  (sum_list (f' <$> l) + 2 = sum_list (f <$> l))%nat.
Proof.
  intros Hnd Ha Hb Hab Hfa Hfb Hf.
  pose (g := λ x, if decide (x = a) then f' a else f x).
  assert (sum_list (f' <$> l) + 1 = sum_list (g <$> l))%nat as H1.
  { apply (sum_list_change_one g f' l b); [done | done | |].
    - unfold g. by rewrite decide_False by done.
    - intros x Hx. unfold g. case_decide; [by subst | by apply Hf]. }
  assert (sum_list (g <$> l) + 1 = sum_list (f <$> l))%nat as H2.
  { apply (sum_list_change_one f g l a); [done | done | |].
    - unfold g. by rewrite decide_True.
    - intros x Hx. unfold g. by rewrite decide_False. }
  lia.
Qed.

Lemma walk_removelast {V} (E : V → V → Prop) a l x b :
  walk E a (l ++ [x]) b → l ≠ [] → ∃ b', last l = Some b' ∧ walk E a l b'.
Proof.
  revert a. induction l as [|y l IH]; intros a Hw Hne; [done|].
  inversion Hw as [|? b0 l0 ? Hab Hw0 E1 E2 E3]; subst.
  { by destruct l. }
  destruct l as [|z l].
  - exists y. split; [done|]. constructor.
  - destruct (IH b0 Hw0) as (b' & Hlast & Hw'); [done|].
    exists b'. split; [by rewrite last_cons_cons|].
    apply walk_step with b0; [done|]. done.
Qed.

Section GeneratorFacts.
Context `{R : Random} (W H : Z).

Lemma gen_prefix_steps n st :
  gen_inv W H st →
  ∃ st', gen_prefix n W H st = Ok st' ∧ rtc (gen_step W H) st st'.
Proof.
  revert st. induction n as [|n IH]; intros st Hinv; simpl.
  - exists st. split; [done | apply rtc_refl].
  - destruct (last (g_stack st)) as [cur|] eqn:Hlast.
    + destruct (gen_body_step W H st cur Hinv Hlast) as (st1 & -> & Hstep).
      destruct (IH st1) as (st' & Hrun & Hsteps); [by eapply gen_step_inv|].
      exists st'. split; [done|]. by eapply rtc_l.
    + exists st. split; [done | apply rtc_refl].
Qed.

(** The total of standing walls drops by two with every cell visited. *)
Lemma wall_total_step st st' :
  gen_inv W H st → gen_step W H st st' →
  (wall_total (maze_of W H st) + 2 * size (g_visited st) =
   wall_total (maze_of W H st') + 2 * size (g_visited st'))%nat.
Proof.
  intros Hinv Hstep.
  destruct Hstep as [st cur d w1 w2 g' Hlast Hn Hnv H1 H2|st cur ? ?]; [|done].
  destruct (push_walls_standing W H st cur d w1 w2) as (Hcur & Hw1 & Hw2); [done..|].
  unfold wall_total. gen_simpl.
  rewrite size_union, size_singleton by (by apply disjoint_singleton_l).
  assert (sum_list ((λ c, from_option walls_standing 0%nat
            (open_between (g_cells st) cur d w1 w2 !! c)) <$> all_cells W H) + 2 =
          sum_list ((λ c, from_option walls_standing 0%nat (g_cells st !! c))
            <$> all_cells W H))%nat as Hsum; [|lia].
  unfold open_between.
  apply (sum_list_change_two _ _ _ cur (step cur d));
    [apply NoDup_all_cells | by apply elem_of_all_cells | by apply elem_of_all_cells
    | apply not_eq_sym, step_neq | | |].
  - rewrite lookup_insert_ne by apply step_neq.
    rewrite lookup_insert_eq, H1. simpl. by apply walls_standing_clear.
  - rewrite lookup_insert_eq, H2. simpl. by apply walls_standing_clear.
  - intros x Hx1 Hx2. by rewrite !lookup_insert_ne by done.
Qed.

Lemma wall_total_init :
  wall_total (MkMaze W H (init_cells W H)) = (4 * length (all_cells W H))%nat.
Proof.
  unfold wall_total. gen_simpl.
  assert (Hall : ∀ l : list Cell, (∀ c, c ∈ l → in_bounds W H c) →
    sum_list ((λ c, from_option walls_standing 0%nat (init_cells W H !! c)) <$> l) =
    (4 * length l)%nat).
  { induction l as [|c l IH]; intros Hl; [done|]. csimpl.
    rewrite IH by (intros; apply Hl; by right).
    rewrite lookup_init_cells, decide_True by (apply Hl; left). simpl. lia. }
  apply Hall. intros c. by rewrite elem_of_all_cells.
Qed.

(** A grid without cells stays without cells. *)
Lemma generated_nonpositive m :
  W ≤ 0 ∨ H ≤ 0 → generated W H m → m = MkMaze W H ∅.
Proof.
  intros Hdim (fuel & seed & g & g' & Hc).
  assert (Hout : ∀ c, ¬ in_bounds W H c) by (unfold in_bounds; lia).
  assert (Hempty : init_cells W H = ∅).
  { apply map_eq. intros c. rewrite lookup_init_cells, lookup_empty.
    by rewrite decide_False. }
  unfold create, _generate, generate_run in Hc. rewrite Hempty in Hc. gen_simpl.
  destruct fuel as [|fuel]; [done|]. simpl in Hc.
  unfold gen_body in Hc. gen_simpl.
  assert (filter (is_candidate W H {[(0, 0)]}) (cand (0, 0)) = []) as Hnil.
  { unfold cand. rewrite !filter_cons, filter_nil.
    rewrite !decide_False; [done|..]; by intros [?%Hout _]. }
  rewrite Hnil in Hc. simpl in Hc. destruct fuel; simpl in Hc; by simplify_eq.
Qed.

(** In every state of a run: the absent walls lie inside the grid, the
    standing walls and the visited cells balance, and the stack is a walk of
    open edges from [(0, 0)] to its top. *)
Lemma gen_run_facts g st :
  1 ≤ W → 1 ≤ H →
  rtc (gen_step W H) (gen_init (init_cells W H) g) st →
  gen_inv W H st ∧
  walls_inside W H (g_cells st) ∧
  (wall_total (maze_of W H st) + 2 * size (g_visited st) =
   4 * length (all_cells W H) + 2)%nat ∧
  (∀ top, last (g_stack st) = Some top →
          walk (open_edge (maze_of W H st)) (0, 0) (g_stack st) top).
Proof.
  intros HW HH Hsteps.
  apply (gen_steps_ind W H (λ st,
    walls_inside W H (g_cells st) ∧
    (wall_total (maze_of W H st) + 2 * size (g_visited st) =
     4 * length (all_cells W H) + 2)%nat ∧
    (∀ top, last (g_stack st) = Some top →
            walk (open_edge (maze_of W H st)) (0, 0) (g_stack st) top)) g);
    [done | done | | | done].
  - split; [apply walls_inside_init|]. split.
    + gen_simpl. rewrite wall_total_init, size_singleton. lia.
    + gen_simpl. intros top [= <-]. constructor.
  - intros st1 st2 Hinv (Hin & Htot & Hpath) Hstep.
    split; [by eapply walls_inside_step|]. split.
    { rewrite <-(wall_total_step st1 st2) by done. done. }
    destruct Hstep as [st1 cur d w1 w2 g' Hlast Hn Hnv H1 H2|st1 cur Hlast ?];
      gen_simpl.
    + destruct (push_walls_standing W H st1 cur d w1 w2) as (Hcur & _ & _); [done..|].
      intros top. rewrite last_snoc. intros [= <-].
      pose proof (open_edge_open_between W H (g_cells st1) cur d w1 w2) as Hedge.
      eapply walk_snoc.
      * eapply walk_impl; [|by apply Hpath].
        intros x y _ _ Hxy. apply Hedge; [done..|]. by left.
      * apply Hedge; [done..|]. right. by left.
    + apply last_Some in Hlast as [rest Hrest]. rewrite Hrest, removelast_last.
      intros top Htop. specialize (Hpath cur). rewrite Hrest, last_snoc in Hpath.
      destruct (walk_removelast _ _ _ _ _ (Hpath eq_refl)) as (b' & Hb' & Hw).
      { by intros ->. }
      congruence.
Qed.
End GeneratorFacts.

Section EngineFacts.
Context `{R : Random}.

(** X1. The maze [Maze.create(W, H)] returns has the given width and
    height, and its [cells] dictionary has an entry for exactly the cells
    [(x, y)] with [0 <= x < W] and [0 <= y < H] (none when [W <= 0] or
    [H <= 0]). *)
Theorem create_cells_domain W H m :
  generated W H m →
  width m = W ∧ height m = H ∧
  ∀ c, is_Some (cells m !! c) ↔ in_bounds W H c.
Proof.
  intros Hg. destruct (generated_dims W H m Hg) as [Hw Hh].
  split; [done|]. split; [done|]. intros c.
  destruct (decide (1 ≤ W ∧ 1 ≤ H)) as [[HW HH]|Hdim].
  - destruct (generated_final W H m HW HH Hg) as (st & -> & Hinv & _).
    apply (inv_dom _ _ _ Hinv).
  - rewrite (generated_nonpositive W H m) by (done || lia). simpl.
    rewrite lookup_empty. unfold in_bounds. split; [by intros [? ?] | lia].
Qed.

Lemma generated_walls_inside W H m :
  generated W H m → walls_inside W H (cells m).
Proof.
  intros Hg.
  destruct (decide (1 ≤ W ∧ 1 ≤ H)) as [[HW HH]|Hdim].
  - destruct (generated_run W H m HW HH Hg) as (g0 & st & Hsteps & _ & ->).
    by destruct (gen_run_facts W H g0 st HW HH Hsteps) as (_ & Hin & _).
  - rewrite (generated_nonpositive W H m) by (done || lia). by intros c w d.
Qed.

Lemma generated_wall_total W H m :
  1 ≤ W → 1 ≤ H → generated W H m →
  Z.of_nat (wall_total m) = 2 * W * H + 2.
Proof.
  intros HW HH Hg.
  destruct (generated_run W H m HW HH Hg) as (g0 & st & Hsteps & Hst & ->).
  destruct (gen_run_facts W H g0 st HW HH Hsteps) as (Hinv & _ & Htot & _).
  rewrite (final_visited_size W H st Hinv Hst), length_all_cells in Htot. nia.
Qed.

(** X2. A generated maze has a closed outer border, and more: every absent
    wall lies between two cells of the grid, so in every cell a wall whose
    other side is outside the grid is present. *)
Theorem border_walls_standing W H m c w d :
  generated W H m → cells m !! c = Some w → ¬ in_bounds W H (step c d) →
  get_wall w d = true.
Proof.
  intros Hg Hc Hout. apply not_false_iff_true. intros Hd.
  destruct (generated_walls_inside W H m Hg c w d Hc Hd) as [_ ?]. done.
Qed.

(** X3. In a generated [W×H] maze ([W, H >= 1]) the wall dictionaries of
    the cells hold [2*W*H + 2] values [True] in total: of the [4*W*H] walls
    the generator removes two for each of the [W*H - 1] open edges. *)
Theorem wall_total_generated W H m :
  1 ≤ W → 1 ≤ H → generated W H m →
  Z.of_nat (wall_total m) = 2 * W * H + 2 ∧
  Z.of_nat (wall_total m) = 4 * (W * H) - 2 * Z.of_nat (edge_count m).
Proof.
  intros HW HH Hg. pose proof (generated_wall_total W H m HW HH Hg) as Htot.
  destruct (generated_perfect W H m HW HH Hg) as (_ & Hedges & _).
  destruct (generated_dims W H m Hg) as [Hwd Hht]. rewrite Hwd, Hht in Hedges.
  split; [done | lia].
Qed.

(** X4. After any number of iterations of the loop of [_generate] on a
    grid with [W, H >= 1], no exception has been raised, the stack holds no
    cell twice and at most [W*H] cells, all of them visited, and it is a walk
    along open edges from [(0, 0)] to the cell on top. *)
Theorem generate_stack_path W H g n :
  1 ≤ W → 1 ≤ H →
  ∃ st,
    gen_prefix n W H (gen_init (init_cells W H) g) = Ok st ∧
    NoDup (g_stack st) ∧
    Z.of_nat (length (g_stack st)) ≤ W * H ∧
    (∀ c, c ∈ g_stack st → c ∈ g_visited st) ∧
    (∀ top, last (g_stack st) = Some top →
            walk (open_edge (maze_of W H st)) (0, 0) (g_stack st) top).
Proof.
  intros HW HH.
  destruct (gen_prefix_steps W H n _ (gen_inv_init W H g HW HH))
    as (st & Hrun & Hsteps).
  destruct (gen_run_facts W H g st HW HH Hsteps) as (Hinv & _ & _ & Hpath).
  exists st. split; [done|].
  assert (Hnd : NoDup (g_stack st)).
  { pose proof (inv_push_nodup _ _ _ Hinv) as Hp.
    rewrite (inv_push_pop _ _ _ Hinv) in Hp. by apply NoDup_app in Hp as (_ & _ & ?). }
  split; [done|]. split; [|split; [by apply (inv_stack_vis _ _ _ Hinv) | done]].
  assert (g_stack st ⊆+ all_cells W H) as Hsub%submseteq_length.
  { apply NoDup_submseteq; [done|]. intros c Hc.
    apply elem_of_all_cells, (inv_vis_bounds _ _ _ Hinv), (inv_stack_vis _ _ _ Hinv), Hc. }
  rewrite length_all_cells in Hsub. nia.
Qed.
End EngineFacts.

(** ** More on the solver *)

Lemma is_open_test m c w d :
  in_bounds (width m) (height m) c → cells m !! c = Some w →
  is_open m c d = negb (get_wall w d) && bounds_test m c d.
Proof.
  intros [Hx Hy] Hw. unfold is_open, bounds_test, in_bounds. rewrite Hw.
  rewrite bool_decide_eq_true_2 by done. rewrite (andb_comm _ (negb _)). simpl.
  f_equal. destruct d; simpl;
    repeat match goal with
    | |- context [?a <=? ?b] => destruct (Z.leb_spec a b)
    | |- context [?a <? ?b] => destruct (Z.ltb_spec a b)
    end;
    first [apply bool_decide_eq_true_2; lia | apply bool_decide_eq_false_2; lia].
Qed.

(** X5. On a cell that has an entry, [neighbors_open] returns, in the order
    north, south, east, west and without repetition, the neighbours whose
    wall on the side of the cell is absent and that pass the one bounds test
    made for their direction.  For a cell of the grid these are exactly the
    cells reached by an open edge, all of them in the grid: no cell outside
    is returned even where a border wall is missing.  The maze is left as it
    is. *)
Theorem neighbors_open_spec m c w :
  cells m !! c = Some w →
  ∃ l, neighbors_open c m = Some (Ok l, m) ∧
       l = step c <$> filter (λ d, negb (get_wall w d) && bounds_test m c d = true)
                        [North; South; East; West] ∧
       NoDup l ∧ (length l ≤ 4)%nat ∧
       (in_bounds (width m) (height m) c →
        ∀ b, (b ∈ l ↔ open_edge m c b) ∧
             (b ∈ l → in_bounds (width m) (height m) b)).
Proof.
  intros Hw. rewrite neighbors_open_run, Hw. eexists. split; [done|].
  assert (Heq : open_neighbors_of m w c =
    step c <$> filter (λ d, negb (get_wall w d) && bounds_test m c d = true)
                 [North; South; East; West]).
  { destruct c as [x y]. rewrite !filter_cons, filter_nil.
    unfold open_neighbors_of, bounds_test. cbn [fst snd].
    destruct (negb (get_wall w North) && (0 <=? y - 1));
      destruct (negb (get_wall w South) && (y + 1 <? height m));
      destruct (negb (get_wall w East) && (x + 1 <? width m));
      destruct (negb (get_wall w West) && (0 <=? x - 1)); reflexivity. }
  split; [done|]. rewrite Heq. split; [|split].
  - apply NoDup_fmap_2_strong.
    + intros d e _ _. apply step_inj.
    + apply NoDup_filter. repeat (apply NoDup_cons; split;
        [rewrite ?elem_of_cons, elem_of_nil; intros Hx;
         repeat destruct Hx as [Hx|Hx]; done|]). apply NoDup_nil_2.
  - rewrite length_fmap.
    pose proof (length_filter (λ d, negb (get_wall w d) && bounds_test m c d = true)
                  [North; South; East; West]) as Hlen. simpl in Hlen. lia.
  - intros Hc b. rewrite <-Heq. split; [by apply elem_of_open_neighbors|].
    intros Hb%(elem_of_open_neighbors m w c b Hc Hw).
    destruct Hb as (d & <- & (_ & ? & _)%is_open_inv). done.
Qed.

(** ** Breadth-first order: shortest paths in any grid *)

Section Levels.
Context (m : Maze) (start : Cell).

Lemma back_fun cf c l l' :
  back m start cf c l → back m start cf c l' → l = l'.
Proof.
  intros Hb. revert l'. induction Hb as [Hs|c p l Hc He Hb IH Hn]; intros l' Hb'.
  - inversion Hb' as [|? p' l0 Hc']; [done | congruence].
  - inversion Hb' as [Hs' E1 E2|? p' l0 Hc' He' Hb0 Hn0 E1 E2]; [congruence|].
    assert (p' = p) as -> by congruence. f_equal. by apply IH.
Qed.

Lemma back_head_dom cf c l : back m start cf c l → is_Some (cf !! c).
Proof. destruct 1; eauto. Qed.

Lemma back_insert_inv cf nb cur c l :
  (∀ c, is_Some (cf !! c) → ∃ l, back m start cf c l) →
  cf !! nb = None → is_Some (cf !! cur) →
  back m start (<[nb := Some cur]> cf) c l →
  (c ≠ nb ∧ back m start cf c l) ∨
  (c = nb ∧ ∃ l', l = nb :: l' ∧ back m start cf cur l').
Proof.
  intros Hall Hnb Hcur Hb.
  assert (Hold : ∀ c l, c ≠ nb → back m start (<[nb := Some cur]> cf) c l →
                        back m start cf c l).
  { intros c0 l0 Hne Hb0. pose proof (back_head_dom _ _ _ Hb0) as Hd.
    rewrite lookup_insert_ne in Hd by done.
    destruct (Hall c0 Hd) as [l1 Hl1].
    by rewrite (back_fun _ _ _ _ Hb0 (back_insert m start cf c0 l1 nb (Some cur) Hl1 Hnb)). }
  destruct (decide (c = nb)) as [->|Hne]; [right | left; auto].
  split; [done|].
  inversion Hb as [Hs E1 E2|? p l0 Hc He Hb0 Hn0 E1 E2].
  - rewrite <-E1, lookup_insert_eq in Hs. done.
  - rewrite lookup_insert_eq in Hc. injection Hc as <-.
    exists l0. split; [done|]. apply Hold; [|done].
    intros ->. destruct Hcur as [? ?]. congruence.
Qed.

Lemma levels_init :
  bfs_levels m start [start] {[start := None]}.
Proof.
  assert (Hone : ∀ c l, back m start {[start := None]} c l → c = start).
  { intros c l [v Hv]%back_head_dom. by apply lookup_singleton_Some in Hv as [-> _]. }
  constructor.
  - intros i j ci cj li lj Hij Hi Hj Hbi Hbj.
    apply Hone in Hbi as Ei. apply Hone in Hbj as Ej. subst.
    rewrite (back_fun _ _ _ _ Hbi Hbj). lia.
  - intros u lu c lc Hu%Hone Hnot. destruct Hnot. subst. left.
  - intros u lu w Hu%Hone Hnot. destruct Hnot. subst. left.
Qed.

(** One pass of the body of the [for] loop keeps the order. *)
Lemma levels_discover cur queue cf nb lcur :
  bfs_inv m start (cur :: queue) cf → bfs_levels m start (cur :: queue) cf →
  back m start cf cur lcur → open_edge m cur nb →
  let acc := discover cur (queue, cf) nb in
  bfs_levels m start (cur :: acc.1) acc.2 ∧
  (∀ c l, back m start cf c l → back m start acc.2 c l) ∧
  ∃ lnb, back m start acc.2 nb lnb ∧ (length lnb ≤ length lcur + 1)%nat.
Proof.
  intros [Hst Hback Hbounds Hqueue Hclosed] [Hsorted Hexp Hedge] Hcur He.
  unfold discover. simpl.
  destruct (cf !! nb) as [v|] eqn:Hnb; simpl.
  - split; [done|]. split; [done|].
    destruct (Hback nb) as [lnb Hlnb]; [by eauto|]. exists lnb. split; [done|].
    destruct (decide (nb ∈ cur :: queue)) as [Hin|Hnin].
    + apply list_elem_of_lookup in Hin as [j Hj].
      destruct (Hsorted 0%nat j cur nb lcur lnb); [lia | done..|lia].
    + pose proof (Hexp nb lnb cur lcur Hlnb Hnin (list_elem_of_here _ _) Hcur). lia.
  - assert (Hcur_dom : is_Some (cf !! cur)) by (apply Hqueue; left).
    pose proof (back_insert_inv cf nb cur) as Hinv.
    assert (Hnew : back m start (<[nb := Some cur]> cf) nb (nb :: lcur)).
    { apply back_step with cur; [apply lookup_insert_eq | done | by apply back_insert |].
      intros [? ?]%(back_dom m start cf cur lcur nb Hcur). congruence. }
    assert (Hold : ∀ c l, c ∈ cur :: queue →
              back m start (<[nb := Some cur]> cf) c l → back m start cf c l).
    { intros c l Hc Hb. destruct (Hinv c l Hback Hnb Hcur_dom Hb) as [[_ ?]|[-> _]]; [done|].
      apply Hqueue in Hc as [? ?]. congruence. }
    assert (Hold' : ∀ c l, c ≠ nb →
              back m start (<[nb := Some cur]> cf) c l → back m start cf c l).
    { intros c l Hc Hb. by destruct (Hinv c l Hback Hnb Hcur_dom Hb) as [[_ ?]|[-> _]]. }
    assert (Hlen_nb : ∀ l, back m start (<[nb := Some cur]> cf) nb l →
              length l = S (length lcur)).
    { intros l Hb. by rewrite (back_fun _ _ _ _ Hb Hnew). }
    assert (Hfirst : ∀ c l, c ∈ cur :: queue → back m start cf c l →
              (length lcur ≤ length l ≤ length lcur + 1)%nat).
    { intros c l [j Hj]%list_elem_of_lookup Hb.
      apply (Hsorted 0%nat j cur c lcur l); [lia | done..]. }
    split; [|split; [intros; by apply back_insert | exists (nb :: lcur); split; [done | simpl; lia]]].
    change (cur :: queue ++ [nb]) with ((cur :: queue) ++ [nb]).
    constructor.
    + intros i j ci cj li lj Hij Hi Hj Hbi Hbj.
      apply lookup_snoc_Some in Hi as [[Hi1 Hi2]|[Hi1 <-]];
        apply lookup_snoc_Some in Hj as [[Hj1 Hj2]|[Hj1 <-]].
      * apply (Hsorted i j ci cj); [done..| |]; apply Hold; try done;
          by eapply list_elem_of_lookup_2.
      * rewrite (Hlen_nb lj Hbj).
        apply list_elem_of_lookup_2 in Hi2.
        pose proof (Hfirst ci li Hi2 (Hold _ _ Hi2 Hbi)). lia.
      * lia.
      * rewrite (Hlen_nb lj Hbj), (Hlen_nb li Hbi). lia.
    + intros u lu c lc Hu Hnot Hc Hb.
      apply not_elem_of_app in Hnot as [Hnot Hne%not_elem_of_cons].
      destruct Hne as [Hne _].
      apply Hold' in Hu; [|done].
      apply elem_of_app in Hc as [Hc| ->%list_elem_of_singleton].
      * apply (Hexp u lu c lc); [done..|]. by apply Hold.
      * rewrite (Hlen_nb lc Hb).
        pose proof (Hexp u lu cur lcur Hu Hnot (list_elem_of_here _ _) Hcur). lia.
    + intros u lu w Hu Hnot Hw.
      apply not_elem_of_app in Hnot as [Hnot Hne%not_elem_of_cons].
      destruct Hne as [Hne _].
      apply Hold' in Hu; [|done].
      destruct (Hedge u lu w Hu Hnot Hw) as (lw & Hlw & ?).
      exists lw. split; [by apply back_insert | done].
Qed.

Lemma levels_fold cur nbs queue cf lcur :
  bfs_inv m start (cur :: queue) cf → bfs_levels m start (cur :: queue) cf →
  back m start cf cur lcur →
  (∀ nb, nb ∈ nbs → open_edge m cur nb) →
  let acc := foldl (discover cur) (queue, cf) nbs in
  bfs_levels m start (cur :: acc.1) acc.2 ∧
  (∀ c l, back m start cf c l → back m start acc.2 c l) ∧
  (∀ nb, nb ∈ nbs →
     ∃ lnb, back m start acc.2 nb lnb ∧ (length lnb ≤ length lcur + 1)%nat).
Proof.
  revert queue cf. induction nbs as [|nb nbs IH]; intros queue cf Hinv Hlev Hcur Hnbs; simpl.
  - split; [done|]. split; [done|]. by intros ? ?%elem_of_nil.
  - destruct (levels_discover cur queue cf nb lcur Hinv Hlev Hcur)
      as (Hlev1 & Hmono1 & lnb & Hlnb & Hlen); [apply Hnbs; left|].
    destruct (discover_inv m start cur queue cf nb Hinv) as (Hinv1 & _);
      [apply Hnbs; left|].
    destruct (discover cur (queue, cf) nb) as [q1 cf1]. simpl in *.
    destruct (IH q1 cf1 Hinv1 Hlev1 (Hmono1 _ _ Hcur)) as (Hlev2 & Hmono2 & Hnb2);
      [intros; apply Hnbs; by right|].
    split; [done|]. split; [by auto|].
    intros c [->|Hc]%elem_of_cons; [|by auto].
    exists lnb. split; [by apply Hmono2 | done].
Qed.

(** When all the neighbours of the head are discovered, the head leaves
    the queue. *)
Lemma levels_pop cur queue cf lcur :
  bfs_levels m start (cur :: queue) cf → back m start cf cur lcur →
  (∀ w, open_edge m cur w →
        ∃ lw, back m start cf w lw ∧ (length lw ≤ length lcur + 1)%nat) →
  bfs_levels m start queue cf.
Proof.
  intros [Hsorted Hexp Hedge] Hcur Hnbs. constructor.
  - intros i j ci cj li lj Hij Hi Hj. apply (Hsorted (S i) (S j)); [lia | done..].
  - intros u lu c lc Hu Hnot Hc Hb.
    destruct (decide (u = cur)) as [->|Hne].
    + rewrite (back_fun _ _ _ _ Hu Hcur).
      apply list_elem_of_lookup in Hc as [j Hj].
      destruct (Hsorted 0%nat (S j) cur c lcur lc); [lia | done..].
    + apply (Hexp u lu c lc); [done | | by right | done].
      by intros [?|?]%elem_of_cons.
  - intros u lu w Hu Hnot Hw.
    destruct (decide (u = cur)) as [->|Hne].
    + rewrite (back_fun _ _ _ _ Hu Hcur). by apply Hnbs.
    + apply (Hedge u lu w); [done | | done]. by intros [?|?]%elem_of_cons.
Qed.

(** Along a walk from a discovered cell: its end is discovered and no
    farther than the walk is long, or a cell still in the queue is. *)
Lemma levels_chain queue cf a l c la :
  bfs_levels m start queue cf →
  walk (open_edge m) a l c → back m start cf a la →
  (∃ lc, back m start cf c lc ∧ (length lc + 1 ≤ length la + length l)%nat) ∨
  (∃ u lu, u ∈ queue ∧ back m start cf u lu ∧
           (length lu + 1 ≤ length la + length l)%nat).
Proof.
  intros Hlev Hw. revert la. induction Hw as [a|a b l c Hab Hw IH]; intros la Ha.
  - left. exists la. split; [done | simpl; lia].
  - destruct (decide (a ∈ queue)) as [Hin|Hnin].
    + right. exists a, la. split; [done|]. split; [done | simpl; lia].
    + destruct (lv_edge _ _ _ _ Hlev a la b Ha Hnin Hab) as (lb & Hlb & Hlen).
      destruct (IH lb Hlb) as [(lc & Hlc & ?)|(u & lu & Hu & Hlu & ?)].
      * left. exists lc. split; [done | simpl; lia].
      * right. exists u, lu. split; [done|]. split; [done | simpl; lia].
Qed.

Hypothesis Hwf : well_formed m.

(** The search loop keeps the breadth-first order; it ends with the queue
    empty or with the goal at its head. *)
Lemma bfs_loop_levels goal fuel queue cf :
  bfs_inv m start queue cf → bfs_levels m start queue cf →
  (bfs_measure m queue cf ≤ fuel)%nat →
  ∃ queue' cf',
    bfs_loop fuel goal queue cf m = Some (Ok cf', m) ∧
    bfs_inv m start queue' cf' ∧ bfs_levels m start queue' cf' ∧
    (queue' = [] ∨ head queue' = Some goal).
Proof.
  revert queue cf. induction fuel as [|fuel IH]; intros queue cf Hinv Hlev Hm;
    destruct queue as [|cur queue].
  - exists [], cf. by auto.
  - unfold bfs_measure in Hm. cbn [length] in Hm. lia.
  - exists [], cf. by auto.
  - simpl. destruct (decide (cur = goal)) as [->|Hne].
    { exists (goal :: queue), cf. split; [done|]. by auto. }
    unfold bind. rewrite neighbors_open_run.
    assert (Hb : in_bounds (width m) (height m) cur).
    { eapply bi_bounds; [done|]. eapply bi_queue; [done | left]. }
    destruct (Hwf cur Hb) as [w Hw]. rewrite Hw.
    destruct (bi_back _ _ _ _ Hinv cur) as [lcur Hcur];
      [eapply bi_queue; [done | left]|].
    assert (Hnb_edge : ∀ nb, nb ∈ open_neighbors_of m w cur → open_edge m cur nb).
    { intros nb Hnb. by apply (elem_of_open_neighbors m w cur nb Hb Hw). }
    destruct (discover_fold_inv m start cur (open_neighbors_of m w cur) queue cf Hinv Hnb_edge)
      as (Hinv' & Hnbs & Hmono & k & Hsz & Hlen).
    destruct (levels_fold cur (open_neighbors_of m w cur) queue cf lcur Hinv Hlev Hcur Hnb_edge)
      as (Hlev' & Hbmono & Hnear).
    destruct (foldl (discover cur) (queue, cf) (open_neighbors_of m w cur))
      as [q' cf'] eqn:Hfold. simpl in *.
    assert (Hinv'' : bfs_inv m start q' cf').
    { destruct Hinv' as [Hst Hback Hbounds Hqueue Hclosed].
      constructor; [done | done | done | |].
      - intros c Hc. apply Hqueue. by right.
      - intros c Hc. destruct (Hclosed c Hc) as [[->|?]%elem_of_cons|?]; [|auto..].
        right. intros b Hbe. by apply Hnbs, (elem_of_open_neighbors m w cur b Hb Hw). }
    apply IH; [done | |].
    + eapply levels_pop; [done | by apply Hbmono |].
      intros b Hbe. by apply Hnear, (elem_of_open_neighbors m w cur b Hb Hw).
    + pose proof (bfs_size_le _ _ _ _ Hinv''). pose proof (bfs_size_le _ _ _ _ Hinv).
      unfold bfs_measure in *. cbn [length] in Hm. lia.
Qed.
End Levels.

Lemma walk_manhattan m a l b :
  walk (open_edge m) a l b →
  Z.abs (b.1 - a.1) + Z.abs (b.2 - a.2) + 1 ≤ Z.of_nat (length l).
Proof.
  induction 1 as [a|a b l c (d & <- & _) Hw IH]; [simpl; lia|].
  cbn [length]. destruct a as [x y], d; simpl in *; lia.
Qed.

Lemma walk_cells_in_bounds m a l b c :
  walk (open_edge m) a l b → in_bounds (width m) (height m) a →
  c ∈ l → in_bounds (width m) (height m) c.
Proof.
  induction 1 as [a|a b l c0 (d & <- & (_ & Hb & _)%is_open_inv) Hw IH]; intros Ha.
  - by intros ->%list_elem_of_singleton.
  - intros [->|Hc]%elem_of_cons; auto.
Qed.

(** X6. On any maze with an entry for every cell of its grid, walls
    symmetric or not, loops or not: when some walk of open edges leads from
    [start] (a cell of the grid) to [goal], [solve_bfs(start, goal)] returns
    a walk of open edges from [start] to [goal] without repeated cell, and
    no walk from [start] to [goal] has fewer cells. *)
Theorem solve_bfs_shortest_any m start goal fuel q :
  well_formed m → in_bounds (width m) (height m) start →
  (grid_fuel (width m) (height m) ≤ fuel)%nat →
  walk (open_edge m) start q goal →
  ∃ p, solve_bfs fuel start (Some goal) m = Some (Ok p, m) ∧
       walk (open_edge m) start p goal ∧ NoDup p ∧
       ∀ q', walk (open_edge m) start q' goal → (length p ≤ length q')%nat.
Proof.
  intros Hwf Hstart Hfuel Hq.
  assert (HN : (1 ≤ length (all_cells (width m) (height m)))%nat).
  { apply elem_of_all_cells in Hstart.
    destruct (all_cells (width m) (height m)); [by apply elem_of_nil in Hstart|].
    simpl. lia. }
  assert (Hfuel' : (2 * length (all_cells (width m) (height m)) ≤ fuel)%nat).
  { rewrite length_all_cells. unfold grid_fuel in Hfuel.
    destruct Hstart as [? ?]. rewrite Z2Nat.inj_mul in Hfuel by lia. lia. }
  destruct (bfs_loop_levels m start Hwf goal fuel [start] {[start := None]}
              (bfs_inv_init m start Hstart) (levels_init m start))
    as (q' & cf' & Hrun & Hinv & Hlev & Hend).
  { unfold bfs_measure. rewrite map_size_singleton. simpl. lia. }
  assert (Hs : back m start cf' start [start]).
  { apply back_start. by eapply bi_start. }
  assert (Hshort : ∀ q0, walk (open_edge m) start q0 goal →
            ∃ lg, back m start cf' goal lg ∧ (length lg ≤ length q0)%nat).
  { intros q0 Hq0.
    destruct (levels_chain m start q' cf' start q0 goal [start] Hlev Hq0 Hs)
      as [(lg & Hlg & Hlen)|(u & lu & Hu & Hlu & Hlen)].
    - exists lg. split; [done | simpl in Hlen; lia].
    - destruct Hend as [->|Hhead]; [by apply elem_of_nil in Hu|].
      destruct q' as [|g0 q']; [done|]. injection Hhead as ->.
      destruct (bi_back _ _ _ _ Hinv goal) as [lg Hlg];
        [eapply bi_queue; [done | left]|].
      exists lg. split; [done|].
      apply list_elem_of_lookup in Hu as [j Hj].
      destruct (lv_sorted _ _ _ _ Hlev 0%nat j goal u lg lu); [lia | done..|].
      simpl in Hlen. lia. }
  destruct (Hshort q Hq) as (lg & Hlg & _).
  destruct (back_walk _ _ _ _ _ Hlg) as [Hw Hnd].
  unfold solve_bfs, bind, ret. rewrite Hrun.
  rewrite (walk_back_back _ _ _ _ _ _ [] Hlg).
  - exists (reverse lg). split; [done|]. split; [done|].
    split; [by apply NoDup_reverse|]. intros q0 Hq0. rewrite length_reverse.
    destruct (Hshort q0 Hq0) as (lg' & Hlg' & ?).
    by rewrite (back_fun _ _ _ _ _ _ Hlg Hlg').
  - assert (lg ⊆+ all_cells (width m) (height m)) as Hsub%submseteq_length; [|lia].
    apply NoDup_submseteq; [done|]. intros x Hx. apply elem_of_all_cells.
    eapply bi_bounds; [done|]. by eapply back_dom.
Qed.

(** X7. On any maze with an entry for every cell of its grid and a start
    in the grid, a sequence [solve_bfs(start, goal)] returns for a reachable
    goal stays in the grid, has at least as many cells as the Manhattan
    distance from [start] to [goal] plus one, and at most [width*height]. *)
Theorem solve_bfs_length_bounds m start goal fuel q :
  well_formed m → in_bounds (width m) (height m) start →
  (grid_fuel (width m) (height m) ≤ fuel)%nat →
  walk (open_edge m) start q goal →
  ∃ p, solve_bfs fuel start (Some goal) m = Some (Ok p, m) ∧
       (∀ c, c ∈ p → in_bounds (width m) (height m) c) ∧
       Z.abs (goal.1 - start.1) + Z.abs (goal.2 - start.2) + 1 ≤ Z.of_nat (length p) ∧
       Z.of_nat (length p) ≤ width m * height m.
Proof.
  intros Hwf Hstart Hfuel Hq.
  destruct (solve_bfs_spec m start Hwf goal fuel Hstart Hfuel)
    as (p & Hrun & [[Hw Hnd]|[_ Hno]]); [|by destruct (Hno q)].
  exists p. split; [done|].
  assert (Hin : ∀ c, c ∈ p → in_bounds (width m) (height m) c).
  { intros c. by eapply walk_cells_in_bounds. }
  split; [done|]. split; [by eapply walk_manhattan|].
  assert (p ⊆+ all_cells (width m) (height m)) as Hsub%submseteq_length.
  { apply NoDup_submseteq; [done|]. intros c Hc. by apply elem_of_all_cells, Hin. }
  rewrite length_all_cells in Hsub. destruct Hstart as [? ?]. nia.
Qed.

Section DefaultSolve.
Context `{R : Random}.

Lemma default_solve_path W H m fuel :
  1 ≤ W → 1 ≤ H → generated W H m → (grid_fuel W H ≤ fuel)%nat →
  ∃ p, solve_bfs fuel (0, 0) None m = Some (Ok p, m) ∧
       head p = Some (0, 0) ∧ last p = Some (W - 1, H - 1) ∧
       walk (open_edge m) (0, 0) p (W - 1, H - 1) ∧ NoDup p ∧
       W + H - 1 ≤ Z.of_nat (length p) ≤ W * H ∧
       ((length p ≤ 1)%nat → W = 1 ∧ H = 1).
Proof.
  intros HW HH Hg Hfuel.
  destruct (generated_dims W H m Hg) as [Hwd Hht].
  pose proof (generated_well_formed W H m HW HH Hg) as Hwf.
  destruct (generated_perfect W H m HW HH Hg) as (Hconn & _ & _ & _).
  rewrite solve_bfs_default, Hwd, Hht.
  assert (Hs : in_bounds (width m) (height m) (0, 0)).
  { rewrite Hwd, Hht. unfold in_bounds. simpl. lia. }
  assert (He : in_bounds (width m) (height m) (W - 1, H - 1)).
  { rewrite Hwd, Hht. unfold in_bounds. simpl. lia. }
  rewrite <-Hwd, <-Hht in Hfuel.
  destruct (solve_bfs_spec m (0, 0) Hwf (W - 1, H - 1) fuel Hs Hfuel)
    as (p & Hrun & [[Hw Hnd]|[_ Hno]]);
    [|destruct (Hconn _ _ Hs He) as [l Hl]; by destruct (Hno l)].
  exists p. split; [done|]. split; [by eapply walk_head|].
  split; [by eapply walk_last|]. split; [done|]. split; [done|].
  pose proof (walk_manhattan _ _ _ _ Hw) as Hman. simpl in Hman.
  assert (p ⊆+ all_cells W H) as Hsub%submseteq_length.
  { apply NoDup_submseteq; [done|]. intros c Hc. apply elem_of_all_cells.
    rewrite <-Hwd, <-Hht. by eapply walk_cells_in_bounds. }
  rewrite length_all_cells in Hsub. split; [nia | lia].
Qed.

(** X8. The call [maze.solve_bfs()] without arguments, as the page and
    image builders make it, on a generated [W×H] maze ([W, H >= 1]): it
    returns a walk of open edges without repeated cell that starts at
    [(0, 0)] and ends at [(W-1, H-1)], with between [W + H - 1] and [W*H]
    cells; it has two cells or more unless the grid is a single cell. *)
Theorem solve_bfs_default_call W H m fuel :
  1 ≤ W → 1 ≤ H → generated W H m → (grid_fuel W H ≤ fuel)%nat →
  ∃ p, solve_bfs fuel (0, 0) None m = Some (Ok p, m) ∧
       head p = Some (0, 0) ∧ last p = Some (W - 1, H - 1) ∧
       walk (open_edge m) (0, 0) p (W - 1, H - 1) ∧ NoDup p ∧
       W + H - 1 ≤ Z.of_nat (length p) ≤ W * H ∧
       ((length p ≤ 1)%nat → W = 1 ∧ H = 1).
Proof. apply default_solve_path. Qed.
End DefaultSolve.

(** ** Drawing *)










Section Drawing.
Context `{R : Random}.


End Drawing.

(** *** The solution drawn over the maze *)




Section Overlay.
Context `{R : Random}.


End Overlay.

(** ** Page layout and book plan *)

Lemma layout_with_fits reserved wall_min wall_div m canvas_size margin :
  1 ≤ width m → 1 ≤ height m → 1 ≤ wall_min →
  0 ≤ canvas_size.1 - 2 * margin → 0 ≤ canvas_size.2 - 2 * margin - reserved →
  ∃ l, layout_with reserved wall_min wall_div m canvas_size margin = Some l ∧
       0 ≤ cell_size l ∧ 1 ≤ wall_width l ∧
       (margin ≤ start_x l ∧
        start_x l + width m * cell_size l ≤ canvas_size.1 - margin) ∧
       (margin ≤ start_y l ∧
        start_y l + height m * cell_size l ≤ canvas_size.2 - margin - reserved) ∧
       (canvas_size.1 - 2 * margin < width m * (cell_size l + 1) ∨
        canvas_size.2 - 2 * margin - reserved < height m * (cell_size l + 1)) ∧
       0 ≤ (canvas_size.1 - 2 * margin - width m * cell_size l)
             - 2 * (start_x l - margin) ≤ 1 ∧
       0 ≤ (canvas_size.2 - 2 * margin - reserved - height m * cell_size l)
             - 2 * (start_y l - margin) ≤ 1.
Proof.
  intros HW HH Hmin Hmw Hmh. unfold layout_with, floordiv.
  rewrite !decide_False by lia. eexists. split; [done|]. simpl.
  set (mw := canvas_size.1 - 2 * margin) in *.
  set (mh := canvas_size.2 - 2 * margin - reserved) in *.
  pose proof (Z.mul_div_le mw (width m) ltac:(lia)) as Ha1.
  pose proof (Z.mul_succ_div_gt mw (width m) ltac:(lia)) as Ha2.
  pose proof (Z.mul_div_le mh (height m) ltac:(lia)) as Hb1.
  pose proof (Z.mul_succ_div_gt mh (height m) ltac:(lia)) as Hb2.
  pose proof (Z.div_pos mw (width m) ltac:(lia) ltac:(lia)) as Ha0.
  pose proof (Z.div_pos mh (height m) ltac:(lia) ltac:(lia)) as Hb0.
  set (c := Z.min (mw / width m) (mh / height m)) in *.
  assert (Hc0 : 0 ≤ c) by lia.
  assert (Hcw : width m * c ≤ mw) by nia.
  assert (Hch : height m * c ≤ mh) by nia.
  assert (Hmax : mw < width m * (c + 1) ∨ mh < height m * (c + 1)).
  { destruct (Z.min_spec (mw / width m) (mh / height m)) as [[_ Hc]|[_ Hc]];
      fold c in Hc; rewrite Hc; [left | right]; lia. }
  pose proof (Z.div_mod (mw - width m * c) 2 ltac:(lia)) as Hx.
  pose proof (Z.mod_pos_bound (mw - width m * c) 2 ltac:(lia)) as Hx'.
  pose proof (Z.div_mod (mh - height m * c) 2 ltac:(lia)) as Hy.
  pose proof (Z.mod_pos_bound (mh - height m * c) 2 ltac:(lia)) as Hy'.
  repeat split; try lia.
Qed.

(** X14. The layout of a maze page ([draw_maze_page], 100 pixels reserved)
    and of a key page ([draw_key_page], 60 pixels reserved), for a maze with
    [width, height >= 1] on a canvas whose area inside the margins is not
    negative: no [ZeroDivisionError]; the maze rectangle lies inside the
    margins and above the reserved strip; the cell size is the largest that
    fits; the maze is centred to within one pixel; the walls are at least one
    pixel wide. *)
Theorem page_layout_fits reserved builder m canvas_size margin :
  (reserved = 100 ∧ builder = maze_page_layout) ∨
  (reserved = 60 ∧ builder = key_page_layout) →
  1 ≤ width m → 1 ≤ height m →
  0 ≤ canvas_size.1 - 2 * margin → 0 ≤ canvas_size.2 - 2 * margin - reserved →
  ∃ l, builder m canvas_size margin = Some l ∧
       0 ≤ cell_size l ∧ 1 ≤ wall_width l ∧
       (margin ≤ start_x l ∧
        start_x l + width m * cell_size l ≤ canvas_size.1 - margin) ∧
       (margin ≤ start_y l ∧
        start_y l + height m * cell_size l ≤ canvas_size.2 - margin - reserved) ∧
       (canvas_size.1 - 2 * margin < width m * (cell_size l + 1) ∨
        canvas_size.2 - 2 * margin - reserved < height m * (cell_size l + 1)) ∧
       0 ≤ (canvas_size.1 - 2 * margin - width m * cell_size l)
             - 2 * (start_x l - margin) ≤ 1 ∧
       0 ≤ (canvas_size.2 - 2 * margin - reserved - height m * cell_size l)
             - 2 * (start_y l - margin) ≤ 1.
Proof.
  intros [[-> ->]|[-> ->]] HW HH Hmw Hmh; by apply layout_with_fits.
Qed.

Section LayoutErrors.
Context `{R : Random}.

End LayoutErrors.

(** *** The groups of the key pages *)

Lemma key_page_groups_nat {A} (l : list A) :
  key_page_groups l =
  (λ k : nat, take 4 (drop (4 * k) l)) <$> seq 0 ((length l + 3) / 4).
Proof.
  unfold key_page_groups, range_by, seqZ. rewrite <-!list_fmap_compose.
  replace (Z.to_nat ((Z.of_nat (length l) + 4 - 1) / 4)) with ((length l + 3) / 4)%nat.
  2:{ apply Nat2Z.inj. rewrite Nat2Z.inj_div, Z2Nat.id.
      - f_equal. lia.
      - apply Z.div_pos; lia. }
  apply list_fmap_ext. intros _ k _. simpl. unfold slice. f_equal; [lia|]. f_equal. lia.
Qed.

Lemma chunks_succ {A} (l : list A) n :
  (λ k : nat, take 4 (drop (4 * k) l)) <$> seq 0 (S n) =
  take 4 l :: ((λ k : nat, take 4 (drop (4 * k) (drop 4 l))) <$> seq 0 n).
Proof.
  simpl. f_equal. rewrite <-fmap_S_seq, <-list_fmap_compose.
  apply list_fmap_ext. intros _ k _. simpl. rewrite drop_drop. do 2 f_equal. lia.
Qed.

Lemma chunks_spec {A} n (l : list A) :
  (4 * n < length l + 4)%nat → (length l ≤ 4 * n)%nat →
  concat ((λ k : nat, take 4 (drop (4 * k) l)) <$> seq 0 n) = l ∧
  Forall (λ g, (1 ≤ length g ≤ 4)%nat)
         ((λ k : nat, take 4 (drop (4 * k) l)) <$> seq 0 n).
Proof.
  revert l. induction n as [|n IH]; intros l Hlo Hhi.
  - destruct l; [done | simpl in Hhi; lia].
  - rewrite chunks_succ. destruct (IH (drop 4 l)) as [Hcat Hall].
    { rewrite length_drop. lia. }
    { rewrite length_drop. lia. }
    split.
    + cbn [concat]. rewrite Hcat. apply take_drop.
    + constructor; [|done]. rewrite length_take. lia.
Qed.

(** X16. The key pages of [main]: cutting [all_keys] into
    [all_keys[i:i+4]] for [i = 0, 4, 8, ...] loses and repeats nothing (the
    groups, put end to end, are [all_keys]); every group has between one and
    four keys, so the cut [keys[:4]] in [create_4up_key_page] keeps them all;
    there are [ceil(len(all_keys) / 4)] groups. *)
Theorem key_page_groups_spec {A} (all_keys : list A) :
  concat (key_page_groups all_keys) = all_keys ∧
  Forall (λ g, (1 ≤ length g ≤ 4)%nat ∧ take 4 g = g) (key_page_groups all_keys) ∧
  length (key_page_groups all_keys) = ((length all_keys + 3) / 4)%nat.
Proof.
  rewrite key_page_groups_nat.
  pose proof (Nat.div_mod (length all_keys + 3) 4 ltac:(lia)) as Hdm.
  pose proof (Nat.mod_upper_bound (length all_keys + 3) 4 ltac:(lia)) as Hmod.
  destruct (chunks_spec ((length all_keys + 3) / 4) all_keys) as [Hcat Hall]; [lia..|].
  split; [done|]. split; [|by rewrite length_fmap, length_seq].
  eapply Forall_impl; [done|]. intros g Hg. simpl in Hg. split; [done|].
  apply take_ge. lia.
Qed.

(** *** The tiles of a key page *)

Lemma paste_keys_spec {Id Img} (positions : list Point) kw kh (keys : list (Id * Img)) i :
  (i + length keys ≤ length positions)%nat → (length positions ≤ 4)%nat →
  ∃ tiles, paste_keys positions kw kh i keys = Some tiles ∧
           (λ t, (tile_label t, tile_image t)) <$> tiles = keys ∧
           ∀ j t, tiles !! j = Some t →
                  ∃ pos, positions !! (i + j)%nat = Some pos ∧
                         tile_size t = (kw, kh) ∧ tile_at t = pos ∧
                         tile_label_at t = (pos.1 + kw / 2 - 30, pos.2 + kh + 10).
Proof.
  revert i. induction keys as [|[maze_id key_img] keys IH]; intros i Hlen Hpos.
  - exists []. by split; [|split].
  - simpl in Hlen. simpl. rewrite decide_False by lia.
    destruct (positions !! i) as [pos|] eqn:Hi;
      [|apply lookup_ge_None in Hi; lia].
    destruct (IH (S i)) as (tiles & -> & Hkeys & Htiles); [lia | done |].
    simpl. eexists. split; [done|]. split; [csimpl; by rewrite Hkeys|].
    intros [|j] t; simpl.
    + intros [= <-]. exists pos. by rewrite Nat.add_0_r.
    + intros Ht. destruct (Htiles j t Ht) as (pos' & Hpos' & ?).
      exists pos'. split; [|done]. by replace (i + S j)%nat with (S i + j)%nat by lia.
Qed.

(** X17. A key page of four: for a canvas at least 122 pixels wide and
    high, [create_4up_key_page] raises no [IndexError] and pastes one tile
    for each of the first four keys, in their order, each with its own maze
    id; all tiles have the same positive size, lie inside the canvas and do
    not overlap each other, and each label starts 10 pixels below its tile,
    on the page and left of the tile's right edge. *)
Theorem key_page_tiles {Id Img} (keys : list (Id * Img)) (canvas_size : Z * Z) :
  122 ≤ canvas_size.1 → 122 ≤ canvas_size.2 →
  ∃ tiles,
    create_4up_key_page keys canvas_size = Some tiles ∧
    (λ t, (tile_label t, tile_image t)) <$> tiles = take 4 keys ∧
    (∀ t, t ∈ tiles →
       tile_size t = (canvas_size.1 / 2 - 60, canvas_size.2 / 2 - 60) ∧
       0 < (tile_size t).1 ∧ 0 < (tile_size t).2 ∧
       0 ≤ (tile_at t).1 ∧ (tile_at t).1 + (tile_size t).1 ≤ canvas_size.1 ∧
       0 ≤ (tile_at t).2 ∧ (tile_at t).2 + (tile_size t).2 ≤ canvas_size.2 ∧
       (tile_label_at t).2 = (tile_at t).2 + (tile_size t).2 + 10 ∧
       0 ≤ (tile_label_at t).1 < (tile_at t).1 + (tile_size t).1) ∧
    (∀ i j t u, tiles !! i = Some t → tiles !! j = Some u → i ≠ j →
       (tile_at t).1 + (tile_size t).1 ≤ (tile_at u).1 ∨
       (tile_at u).1 + (tile_size u).1 ≤ (tile_at t).1 ∨
       (tile_at t).2 + (tile_size t).2 ≤ (tile_at u).2 ∨
       (tile_at u).2 + (tile_size u).2 ≤ (tile_at t).2).
Proof.
  destruct canvas_size as [cw ch]. simpl. intros Hw Hh. unfold create_4up_key_page. simpl.
  pose proof (Z.div_mod cw 2 ltac:(lia)) as Hcw.
  pose proof (Z.mod_pos_bound cw 2 ltac:(lia)) as Hcw'.
  pose proof (Z.div_mod ch 2 ltac:(lia)) as Hch.
  pose proof (Z.mod_pos_bound ch 2 ltac:(lia)) as Hch'.
  revert Hcw Hcw' Hch Hch'. generalize (cw `mod` 2) (ch `mod` 2) (cw / 2) (ch / 2).
  intros rw rh hw hh Hcw Hcw' Hch Hch'.
  edestruct (paste_keys_spec (Id:=Id) (Img:=Img)
               [(30, 30); (hw + 30, 30); (30, hh + 30); (hw + 30, hh + 30)]
               (hw - 60) (hh - 60) (take 4 keys) 0) as (tiles & -> & Hkeys & Htiles).
  { rewrite length_take. cbn [length]. lia. }
  { cbn [length]. lia. }
  exists tiles. split; [done|]. split; [done|]. split.
  - intros t (j & Hj)%list_elem_of_lookup_1.
    destruct (Htiles j t Hj) as (pos & Hpos & -> & -> & ->). simpl in *.
    destruct j as [|[|[|[|j]]]]; simplify_eq/=; Z.div_mod_to_equations; (split; [done | lia]).
  - intros i j t u Hi Hj Hij.
    destruct (Htiles i t Hi) as (pi & Hpi & -> & -> & _).
    destruct (Htiles j u Hj) as (pj & Hpj & -> & -> & _). simpl in *.
    destruct i as [|[|[|[|i]]]]; destruct j as [|[|[|[|j]]]]; simplify_eq/=; lia.
Qed.

(** *** The calls of [Maze.create] made by [main] *)

Section BookPlan.
Context (seed : Z) (stages : list (Z * Z * Z)).

Lemma stage_calls_ok st count grid_size stage_num :
  plan_ok seed stages st → (count, grid_size, stage_num) ∈ stages →
  plan_ok seed stages (stage_calls seed st (count, grid_size, stage_num)) ∧
  length (stage_calls seed st (count, grid_size, stage_num)).2 =
  (length st.2 + Z.to_nat count)%nat.
Proof.
  intros Hok Hin. unfold stage_calls, range. rewrite <-(length_seqZ 0 count).
  generalize (seqZ 0 count). intros xs. revert st Hok.
  induction xs as [|x xs IH]; intros st Hok; simpl.
  - split; [done | lia].
  - destruct (IH (st.1 + 1, st.2 ++ [MkCall st.1 stage_num grid_size (seed + st.1)]))
      as [Hok' Hlen'].
    + destruct Hok as [Hlen Hidx]. split; simpl.
      * rewrite length_app. simpl. lia.
      * intros i c [[_ Hi]|[-> <-]]%lookup_snoc_Some; [by apply Hidx|].
        simpl. split; [lia|]. split; [done | by exists count].
    + split; [done|]. rewrite Hlen'. simpl. rewrite length_app. simpl. lia.
Qed.

Lemma maze_calls_ok ss st :
  plan_ok seed stages st → (∀ s, s ∈ ss → s ∈ stages) →
  plan_ok seed stages (foldl (stage_calls seed) st ss) ∧
  length (foldl (stage_calls seed) st ss).2 =
  (length st.2 + sum_list ((λ s, Z.to_nat s.1.1) <$> ss))%nat.
Proof.
  revert st. induction ss as [|[[count grid_size] stage_num] ss IH]; intros st Hok Hss.
  - simpl. split; [done | lia].
  - destruct (stage_calls_ok st count grid_size stage_num Hok) as [Hok1 Hlen1];
      [apply Hss; left|].
    destruct (IH _ Hok1) as [Hok2 Hlen2]; [intros; apply Hss; by right|].
    split; [done|]. cbn [foldl]. rewrite Hlen2, Hlen1. csimpl. lia.
Qed.
End BookPlan.

Lemma maze_calls_length seed stages :
  length (maze_calls seed stages) = sum_list ((λ s, Z.to_nat s.1.1) <$> stages).
Proof.
  destruct (maze_calls_ok seed stages stages (1, [])) as [_ Hlen]; [|done|done].
  split; [done|]. by intros [|i] c.
Qed.

(** X18. The mazes of the book, as [main] orders them: for any seed and
    stage table, the loops make one call of [Maze.create] for each unit of
    each (positive) stage count; the [k]-th call ([k = 1, 2, ...]) is numbered
    [k] and seeded with [args.seed + k], on a square grid of the size of one
    of the stages; so no two calls use the same seed. *)
Theorem maze_calls_spec seed stages :
  length (maze_calls seed stages) = sum_list ((λ s, Z.to_nat s.1.1) <$> stages) ∧
  (∀ i c, maze_calls seed stages !! i = Some c →
     call_counter c = Z.of_nat i + 1 ∧ call_seed c = seed + (Z.of_nat i + 1) ∧
     ∃ count, (count, call_grid c, call_stage c) ∈ stages) ∧
  NoDup (call_seed <$> maze_calls seed stages).
Proof.
  destruct (maze_calls_ok seed stages stages (1, [])) as [[_ Hidx] Hlen]; [|done|].
  { split; [done|]. by intros [|i] c. }
  fold (maze_calls seed stages) in Hidx.
  split; [apply maze_calls_length|]. split.
  - intros i c Hc. destruct (Hidx i c Hc) as (Hcnt & Hseed & Hst).
    split; [done|]. split; [by rewrite Hseed, Hcnt | done].
  - apply NoDup_alt. intros i j z. rewrite !list_lookup_fmap.
    destruct (maze_calls seed stages !! i) as [ci|] eqn:Hi; [|done].
    destruct (maze_calls seed stages !! j) as [cj|] eqn:Hj; [|done].
    simpl. intros [= <-] [= Heq].
    destruct (Hidx i ci Hi) as (? & ? & _). destruct (Hidx j cj Hj) as (? & ? & _). lia.
Qed.

(** X19. The quality checks that end [main], once a run reaches them: the
    four assertions all pass exactly when the four stage counts are not
    negative and add up to 72 and [--s5] is 8; for any other counts one of
    them raises [AssertionError].  The third assertion (18 key pages) is
    never the first to fail. *)
Theorem quality_checks_spec seed s1 s2 s3 s4 s5 :
  (quality_checks seed s1 s2 s3 s4 s5 = None ↔
   0 ≤ s1 ∧ 0 ≤ s2 ∧ 0 ≤ s3 ∧ 0 ≤ s4 ∧ s1 + s2 + s3 + s4 = 72 ∧ s5 = 8) ∧
  quality_checks seed s1 s2 s3 s4 s5 ≠ Some 3%nat.
Proof.
  unfold quality_checks.
  rewrite key_page_groups_nat, length_fmap, length_seq, maze_calls_length.
  assert (sum_list ((λ s : Z * Z * Z, Z.to_nat s.1.1) <$> stages_of s1 s2 s3 s4) =
          Z.to_nat s1 + Z.to_nat s2 + Z.to_nat s3 + Z.to_nat s4)%nat as ->
    by (simpl; unfold id; lia).
  unfold stages_of. cbn [fmap list_fmap foldr fst snd].
  destruct (decide (Z.to_nat s1 + Z.to_nat s2 + Z.to_nat s3 + Z.to_nat s4 = 72)%nat)
    as [Heq|Hne].
  - rewrite Heq. change ((72 + 3) `div` 4)%nat with 18%nat.
    split; [|repeat case_decide; done].
    repeat case_decide; split; intros; try done; lia.
  - split; [|repeat case_decide; done].
    repeat case_decide; split; intros; try done; lia.
Qed.

(** ** The further properties on concrete inputs *)

Lemma demo5_well_formed : well_formed demo5.
Proof. apply (@generated_well_formed lcg 5 5 demo5); [lia | lia | apply demo5_generated]. Qed.

Lemma demo5_walk :
  walk (open_edge demo5) (0, 0)
    [(0, 0); (0, 1); (1, 1); (1, 2); (1, 3); (1, 4); (2, 4); (3, 4); (4, 4)] (4, 4).
Proof.
  repeat match goal with
  | |- walk _ ?a [?a] ?a => apply walk_one
  | |- walk _ ?a (?a :: ?b :: ?l) ?c =>
      apply (walk_step _ a b (b :: l) c);
      [ first [ by exists North; vm_compute | by exists South; vm_compute
              | by exists East; vm_compute | by exists West; vm_compute ] | ]
  end.
Qed.


Lemma create_cells_domain_witness :
  width demo5 = 5 ∧ height demo5 = 5 ∧
  ∀ c, is_Some (cells demo5 !! c) ↔ in_bounds 5 5 c.
Proof. apply (@create_cells_domain lcg 5 5 demo5 demo5_generated). Defined.

Lemma border_walls_standing_witness :
  get_wall (MkWalls true false true true) West = true.
Proof.
  apply (@border_walls_standing lcg 5 5 demo5 (0, 0) (MkWalls true false true true) West
           demo5_generated); [by vm_compute | unfold in_bounds; simpl; lia].
Defined.

Lemma wall_total_generated_witness :
  Z.of_nat (wall_total demo5) = 2 * 5 * 5 + 2 ∧
  Z.of_nat (wall_total demo5) = 4 * (5 * 5) - 2 * Z.of_nat (edge_count demo5).
Proof. apply (@wall_total_generated lcg 5 5 demo5); [lia | lia | apply demo5_generated]. Defined.

Lemma generate_stack_path_witness :
  ∃ st : @gen_state lcg,
    @gen_prefix lcg 7 3 3 (@gen_init lcg (init_cells 3 3) 7%N) = Ok st ∧
    NoDup (g_stack st) ∧
    Z.of_nat (length (g_stack st)) ≤ 3 * 3 ∧
    (∀ c, c ∈ g_stack st → c ∈ g_visited st) ∧
    (∀ top, last (g_stack st) = Some top →
            walk (open_edge (maze_of 3 3 st)) (0, 0) (g_stack st) top).
Proof. apply (@generate_stack_path lcg 3 3 7%N 7); lia. Defined.

Lemma neighbors_open_spec_witness :
  ∃ l, neighbors_open (0, 0) demo5 = Some (Ok l, demo5) ∧
       l = step (0, 0) <$>
             filter (λ d, negb (get_wall (MkWalls true false true true) d)
                          && bounds_test demo5 (0, 0) d = true)
                    [North; South; East; West] ∧
       NoDup l ∧ (length l ≤ 4)%nat ∧
       (in_bounds (width demo5) (height demo5) (0, 0) →
        ∀ b, (b ∈ l ↔ open_edge demo5 (0, 0) b) ∧
             (b ∈ l → in_bounds (width demo5) (height demo5) b)).
Proof. apply (neighbors_open_spec demo5 (0, 0) (MkWalls true false true true)). by vm_compute. Defined.

Lemma solve_bfs_shortest_any_witness :
  ∃ p, solve_bfs 50 (0, 0) (Some (4, 4)) demo5 = Some (Ok p, demo5) ∧
       walk (open_edge demo5) (0, 0) p (4, 4) ∧ NoDup p ∧
       ∀ q', walk (open_edge demo5) (0, 0) q' (4, 4) → (length p ≤ length q')%nat.
Proof.
  apply (solve_bfs_shortest_any demo5 (0, 0) (4, 4) 50
           [(0, 0); (0, 1); (1, 1); (1, 2); (1, 3); (1, 4); (2, 4); (3, 4); (4, 4)]
           demo5_well_formed);
    [unfold in_bounds; simpl; lia | vm_compute; lia | apply demo5_walk].
Defined.

Lemma solve_bfs_length_bounds_witness :
  ∃ p, solve_bfs 50 (0, 0) (Some (4, 4)) demo5 = Some (Ok p, demo5) ∧
       (∀ c, c ∈ p → in_bounds (width demo5) (height demo5) c) ∧
       Z.abs ((4, 4).1 - (0, 0).1) + Z.abs ((4, 4).2 - (0, 0).2) + 1 ≤ Z.of_nat (length p) ∧
       Z.of_nat (length p) ≤ width demo5 * height demo5.
Proof.
  apply (solve_bfs_length_bounds demo5 (0, 0) (4, 4) 50
           [(0, 0); (0, 1); (1, 1); (1, 2); (1, 3); (1, 4); (2, 4); (3, 4); (4, 4)]
           demo5_well_formed);
    [unfold in_bounds; simpl; lia | vm_compute; lia | apply demo5_walk].
Defined.

Lemma solve_bfs_default_call_witness :
  ∃ p, solve_bfs 50 (0, 0) None demo5 = Some (Ok p, demo5) ∧
       head p = Some (0, 0) ∧ last p = Some (5 - 1, 5 - 1) ∧
       walk (open_edge demo5) (0, 0) p (5 - 1, 5 - 1) ∧ NoDup p ∧
       5 + 5 - 1 ≤ Z.of_nat (length p) ≤ 5 * 5 ∧
       ((length p ≤ 1)%nat → 5 = 1 ∧ 5 = 1).
Proof.
  apply (@solve_bfs_default_call lcg 5 5 demo5 50);
    [lia | lia | apply demo5_generated | vm_compute; lia].
Defined.





Lemma page_layout_fits_witness :
  ∃ l, maze_page_layout demo5 (2550, 3300) 150 = Some l ∧
       0 ≤ cell_size l ∧ 1 ≤ wall_width l ∧
       (150 ≤ start_x l ∧
        start_x l + width demo5 * cell_size l ≤ (2550, 3300).1 - 150) ∧
       (150 ≤ start_y l ∧
        start_y l + height demo5 * cell_size l ≤ (2550, 3300).2 - 150 - 100) ∧
       ((2550, 3300).1 - 2 * 150 < width demo5 * (cell_size l + 1) ∨
        (2550, 3300).2 - 2 * 150 - 100 < height demo5 * (cell_size l + 1)) ∧
       0 ≤ ((2550, 3300).1 - 2 * 150 - width demo5 * cell_size l)
             - 2 * (start_x l - 150) ≤ 1 ∧
       0 ≤ ((2550, 3300).2 - 2 * 150 - 100 - height demo5 * cell_size l)
             - 2 * (start_y l - 150) ≤ 1.
Proof.
  apply (page_layout_fits 100 maze_page_layout demo5 (2550, 3300) 150);
    [by left | simpl; lia | simpl; lia | simpl; lia | simpl; lia].
Defined.


Lemma key_page_tiles_witness :
  ∃ tiles,
    create_4up_key_page [(1, 10); (2, 20); (3, 30); (4, 40); (5, 50)] (2550, 3300)
      = Some tiles ∧
    (λ t, (tile_label t, tile_image t)) <$> tiles =
      take 4 [(1, 10); (2, 20); (3, 30); (4, 40); (5, 50)] ∧
    (∀ t, t ∈ tiles →
       tile_size t = ((2550, 3300).1 / 2 - 60, (2550, 3300).2 / 2 - 60) ∧
       0 < (tile_size t).1 ∧ 0 < (tile_size t).2 ∧
       0 ≤ (tile_at t).1 ∧ (tile_at t).1 + (tile_size t).1 ≤ (2550, 3300).1 ∧
       0 ≤ (tile_at t).2 ∧ (tile_at t).2 + (tile_size t).2 ≤ (2550, 3300).2 ∧
       (tile_label_at t).2 = (tile_at t).2 + (tile_size t).2 + 10 ∧
       0 ≤ (tile_label_at t).1 < (tile_at t).1 + (tile_size t).1) ∧
    (∀ i j t u, tiles !! i = Some t → tiles !! j = Some u → i ≠ j →
       (tile_at t).1 + (tile_size t).1 ≤ (tile_at u).1 ∨
       (tile_at u).1 + (tile_size u).1 ≤ (tile_at t).1 ∨
       (tile_at t).2 + (tile_size t).2 ≤ (tile_at u).2 ∨
       (tile_at u).2 + (tile_size u).2 ≤ (tile_at t).2).
Proof.
  apply (key_page_tiles (Id:=Z) (Img:=Z)
           [(1, 10); (2, 20); (3, 30); (4, 40); (5, 50)] (2550, 3300)); simpl; lia.
Defined.
